(** * MapGrayscaleConv: the TBB map-pattern grayscale conversion

    A shallow embedding of [grayscaleConversion] from
    [src/MapGrayscaleConv/MapGrayscaleConv.cpp], together with the parts of
    OpenCV ([cv::Mat], [cv::Vec3b]) and TBB ([blocked_range2d],
    [parallel_for]) that the function uses.

    C++ [int] is a 32-bit two's complement integer, held in [Z] with its
    wrap-around written out; [uchar] is an 8-bit unsigned integer held in
    [Z]; a [cv::Mat] is its [rows], [cols] and a row-major element buffer. *)

From Stdlib Require Import Ascii.
From stdpp Require Import base decidable option numbers list strings pretty.

Local Open Scope Z_scope.

(** ** Machine integers *)

Definition INT_MIN : Z := - 2 ^ 31.
Definition INT_MAX : Z := 2 ^ 31 - 1.
Definition UCHAR_MAX : Z := 255.

(** Two's complement reduction of a mathematical integer to an [int]. *)
Definition wrap_int (z : Z) : Z := (z + 2 ^ 31) `mod` 2 ^ 32 - 2 ^ 31.

(** [a + b] on [int]. *)
Definition int_add (a b : Z) : Z := wrap_int (a + b).

(** [a / b] on [int]: C++ division truncates toward zero. *)
Definition int_div (a b : Z) : Z := wrap_int (a `quot` b).

(** [static_cast<uchar>(z)]: reduction modulo 2^8. *)
Definition static_cast_uchar (z : Z) : Z := z `mod` 256.

Definition is_int (z : Z) : Prop := INT_MIN ≤ z ≤ INT_MAX.
Definition is_uchar (z : Z) : Prop := 0 ≤ z ≤ UCHAR_MAX.

(** ** OpenCV: [Vec3b] and [Mat] *)

Module cv.

(** [cv::Vec3b]: three [uchar] channels, read with [operator[]]. *)
Record Vec3b : Type := mkVec3b { val0 : Z; val1 : Z; val2 : Z }.

Definition Vec3b_ok (v : Vec3b) : Prop :=
  is_uchar (val0 v) ∧ is_uchar (val1 v) ∧ is_uchar (val2 v).

(** [cv::Mat] holding elements of type [T]: [rows], [cols] and the
    continuous row-major buffer [data]. *)
Record Mat (T : Type) : Type := mkMat { rows : Z; cols : Z; data : list T }.
Arguments mkMat {T} _ _ _.
Arguments rows {T} _.
Arguments cols {T} _.
Arguments data {T} _.

(** Position of element [(i, j)] in the buffer. *)
Definition offset {T} (m : Mat T) (i j : Z) : nat := Z.to_nat (i * cols m + j).

(** The index condition of [Mat::at]: [0 <= i < rows], [0 <= j < cols]. *)
Definition in_bounds {T} (m : Mat T) (i j : Z) : Prop :=
  0 ≤ i < rows m ∧ 0 ≤ j < cols m.

#[global] Instance in_bounds_dec {T} (m : Mat T) i j : Decision (in_bounds m i j).
Proof. unfold in_bounds. apply _. Defined.

(** Reading [m.at<T>(i, j)]; [None] is an access outside the matrix.
    [Mat::at] checks its indices in debug builds only; what a build without
    the check does on such an access is undefined and not modelled: [None]
    marks the access, it does not say that the program stops. *)
Definition at_ {T} (m : Mat T) (i j : Z) : option T :=
  if decide (in_bounds m i j) then data m !! offset m i j else None.

(** Writing [m.at<T>(i, j) = v]; [None] is an access outside the matrix,
    as for [at_]. Only the buffer changes, [rows] and [cols] are kept. *)
Definition set_at {T} (m : Mat T) (i j : Z) (v : T) : option (Mat T) :=
  if decide (in_bounds m i j) then
    if decide (offset m i j < length (data m))%nat then
      Some (mkMat (rows m) (cols m) (<[offset m i j := v]> (data m)))
    else None
  else None.

(** A matrix whose header agrees with its buffer. *)
Definition Mat_ok {T} (m : Mat T) : Prop :=
  0 ≤ rows m ≤ INT_MAX ∧ 0 ≤ cols m ≤ INT_MAX ∧
  length (data m) = Z.to_nat (rows m * cols m).

End cv.

Import cv.

(** ** The per-pixel kernel (source lines 34-40) *)

(** [int gray_value = (intensity[0] + intensity[1] + intensity[2]) / 3;]
    The [uchar] channels are promoted to [int]; the additions associate to
    the left. *)
Definition gray_value (intensity : Vec3b) : Z :=
  int_div (int_add (int_add (val0 intensity) (val1 intensity)) (val2 intensity)) 3.

(** The value stored in the output: [static_cast<uchar>(gray_value)]. *)
Definition toGray (intensity : Vec3b) : Z :=
  static_cast_uchar (gray_value intensity).

(** ** The program state

    [grayscaleConversion] takes both matrices by non-const reference, so
    both are part of the state the function can change. *)
Record State : Type := mkState { input : Mat Vec3b; output : Mat Z }.

(** Source lines 34-40, the body of the inner loop at coordinate [(i, j)]:
    read [input.at<Vec3b>(i, j)], average, store into
    [output.at<uchar>(i, j)]. *)
Definition pixel_step (ij : Z * Z) (st : State) : option State :=
  intensity ← at_ (input st) ij.1 ij.2;
  output' ← set_at (output st) ij.1 ij.2 (toGray intensity);
  Some (mkState (input st) output').

(** The conditions under which the step at [ij] goes through. *)
Definition ready (ij : Z * Z) (st : State) : Prop :=
  is_Some (at_ (input st) ij.1 ij.2) ∧
  in_bounds (output st) ij.1 ij.2 ∧
  (offset (output st) ij.1 ij.2 < length (data (output st)))%nat.

(** [for (int i = b; i < e; ++i) body], as [n] iterations starting at [i];
    [++i] is an [int] increment. *)
Fixpoint for_count {S : Type} (n : nat) (i : Z) (body : Z → S → option S) (s : S)
  : option S :=
  match n with
  | O => Some s
  | Datatypes.S n' => s' ← body i s; for_count n' (int_add i 1) body s'
  end.

(** The loop runs [e - b] times when [b < e] and not at all otherwise. *)
Definition for_int {S : Type} (b e : Z) (body : Z → S → option S) (s : S) : option S :=
  for_count (Z.to_nat (e - b)) b body s.

(** Running a sequence of atomic steps, stopping at the first failure. *)
Fixpoint run_steps {I S : Type} (step : I → S → option S) (l : list I) (s : S)
  : option S :=
  match l with
  | [] => Some s
  | x :: l' => s' ← step x s; run_steps step l' s'
  end.

(** ** TBB: [blocked_range2d] and [parallel_for] *)

Module tbb.

(** [blocked_range<int>]: the half-open interval [[begin, end)]. The
    grain size is the default, 1. *)
Record blocked_range : Type := mkRange { begin : Z; end_ : Z }.

(** [blocked_range2d<int>]: a row interval and a column interval. *)
Record blocked_range2d : Type :=
  mkRange2d { rows : blocked_range; cols : blocked_range }.

Definition empty (r : blocked_range) : Prop := ¬ begin r < end_ r.

Definition empty2d (r : blocked_range2d) : Prop := empty (rows r) ∨ empty (cols r).

#[global] Instance empty2d_dec r : Decision (empty2d r).
Proof. unfold empty2d, empty. apply _. Defined.

(** [is_divisible]: the size is above the grain size. *)
Definition grainsize : Z := 1.
Definition is_divisible (r : blocked_range) : Prop := grainsize < end_ r - begin r.

(** The point at which [blocked_range] halves a divisible range. *)
Definition middle (r : blocked_range) : Z := begin r + (end_ r - begin r) `div` 2.

(** A range is cut at [mid] into [[begin, mid)] and [[mid, end)]; both
    parts are non-empty, which is possible only for a divisible range.
    The middle is one such point; a proportional split picks another. *)
Definition cuts (r : blocked_range) (mid : Z) : Prop := begin r < mid < end_ r.

Definition lower (r : blocked_range) (mid : Z) : blocked_range := mkRange (begin r) mid.
Definition upper (r : blocked_range) (mid : Z) : blocked_range := mkRange mid (end_ r).

(** The splitting decisions of the partitioner: run a range as it is, or
    cut its rows or its columns and recurse on both halves. Which
    dimension is cut, where, and how deep, is left to the scheduler. *)
Inductive split_tree : Type :=
| Leaf
| SplitRows (mid : Z) (lo hi : split_tree)
| SplitCols (mid : Z) (lo hi : split_tree).

(** The sub-ranges handed to the body. A cut that does not fall strictly
    inside a range is not performed. *)
Fixpoint partition (t : split_tree) (r : blocked_range2d) : list blocked_range2d :=
  match t with
  | Leaf => [r]
  | SplitRows mid lo hi =>
      if decide (cuts (rows r) mid) then
        partition lo (mkRange2d (lower (rows r) mid) (cols r)) ++
        partition hi (mkRange2d (upper (rows r) mid) (cols r))
      else [r]
  | SplitCols mid lo hi =>
      if decide (cuts (cols r) mid) then
        partition lo (mkRange2d (rows r) (lower (cols r) mid)) ++
        partition hi (mkRange2d (rows r) (upper (cols r) mid))
      else [r]
  end.

(** [parallel_for] does nothing on an empty range. *)
Definition dispatched (t : split_tree) (r : blocked_range2d) : list blocked_range2d :=
  if decide (empty2d r) then [] else partition t r.

(** A schedule: the splitting decisions, and for each time slot the task
    whose next step runs. *)
Record schedule : Type := mkSchedule { splits : split_tree; picks : list nat }.

Section executor.
Context {I S : Type} (step : I → S → option S).

(** The workers run while the caller waits: slot by slot, the picked
    task performs its next step. A pick of a finished or absent task is
    an idle slot. Returns the steps still pending. *)
Fixpoint run_workers (ks : list nat) (pool : list (list I)) (s : S)
  : option (list (list I) * S) :=
  match ks with
  | [] => Some (pool, s)
  | k :: ks' =>
      match pool !! k with
      | Some (x :: rest) =>
          s' ← step x s; run_workers ks' (<[k := rest]> pool) s'
      | _ => run_workers ks' pool s
      end
  end.

(** The join: every task still pending runs to its end. *)
Definition join (pool : list (list I)) (s : S) : option S :=
  run_steps step (concat pool) s.

(** [parallel_for(range, body)] under schedule [sch], where the body
    applied to a sub-range [r] performs the steps [body r] in order.
    The call returns after the join. *)
Definition parallel_for (sch : schedule) (range : blocked_range2d)
    (body : blocked_range2d → list I) (s : S) : option S :=
  '(pool, s') ← run_workers (picks sch) (body <$> dispatched (splits sch) range) s;
  join pool s'.
End executor.

(** The order in which [run_workers] performs steps, and what it leaves. *)
Fixpoint workers_trace {I : Type} (ks : list nat) (pool : list (list I))
  : list I * list (list I) :=
  match ks with
  | [] => ([], pool)
  | k :: ks' =>
      match pool !! k with
      | Some (x :: rest) =>
          let '(tr, pool') := workers_trace ks' (<[k := rest]> pool) in (x :: tr, pool')
      | _ => workers_trace ks' pool
      end
  end.

(** All steps performed by [parallel_for] before it returns, in order. *)
Definition trace {I : Type} (sch : schedule) (range : blocked_range2d)
    (body : blocked_range2d → list I) : list I :=
  let '(tr, pool) := workers_trace (picks sch) (body <$> dispatched (splits sch) range) in
  tr ++ concat pool.

(** The sequences of steps in which the tasks of a pool can be run to
    their ends by any number of workers: at each moment some task with a
    step left performs it. *)
Inductive interleaving {I : Type} : list (list I) → list I → Prop :=
| interleaving_done pool :
    concat pool = [] → interleaving pool []
| interleaving_step pool k x rest tr :
    pool !! k = Some (x :: rest) →
    interleaving (<[k := rest]> pool) tr →
    interleaving pool (x :: tr).

(** Modelled from the spec: the partitioning of the coordinate space into
    rectangular blocks is done inside [tbb::parallel_for], whose code is
    not part of the repository. A block is dispatched as it is, or cut into
    two non-empty blocks along its rows or along its columns, each of which
    is partitioned in turn; where the cuts fall is the scheduler's
    decision. *)
Inductive splitting : blocked_range2d → list blocked_range2d → Prop :=
| splitting_leaf r :
    splitting r [r]
| splitting_rows r mid parts1 parts2 :
    cuts (rows r) mid →
    splitting (mkRange2d (lower (rows r) mid) (cols r)) parts1 →
    splitting (mkRange2d (upper (rows r) mid) (cols r)) parts2 →
    splitting r (parts1 ++ parts2)
| splitting_cols r mid parts1 parts2 :
    cuts (cols r) mid →
    splitting (mkRange2d (rows r) (lower (cols r) mid)) parts1 →
    splitting (mkRange2d (rows r) (upper (cols r) mid)) parts2 →
    splitting r (parts1 ++ parts2).

(** Coordinates inside a sub-range. *)
Definition contains (r : blocked_range2d) (ij : Z * Z) : Prop :=
  begin (rows r) ≤ ij.1 < end_ (rows r) ∧ begin (cols r) ≤ ij.2 < end_ (cols r).

End tbb.

(** ** [grayscaleConversion] (source lines 21-45) *)

(** The lambda passed to [parallel_for] (lines 25-43): two nested loops over
    the sub-range [r]. *)
Definition lambda (r : tbb.blocked_range2d) (st : State) : option State :=
  for_int (tbb.begin (tbb.rows r)) (tbb.end_ (tbb.rows r)) (λ i st1,
    for_int (tbb.begin (tbb.cols r)) (tbb.end_ (tbb.cols r)) (λ j st2,
      pixel_step (i, j) st2) st1) st.

(** A range whose bounds are [int] values, as every [blocked_range<int>] is. *)
Definition range_ok (r : tbb.blocked_range2d) : Prop :=
  INT_MIN ≤ tbb.begin (tbb.rows r) ∧ tbb.end_ (tbb.rows r) ≤ INT_MAX ∧
  INT_MIN ≤ tbb.begin (tbb.cols r) ∧ tbb.end_ (tbb.cols r) ≤ INT_MAX.

(** The coordinates the lambda visits on [r], in the order it visits them. *)
Definition iterations (r : tbb.blocked_range2d) : list (Z * Z) :=
  i ← seqZ (tbb.begin (tbb.rows r)) (tbb.end_ (tbb.rows r) - tbb.begin (tbb.rows r));
  j ← seqZ (tbb.begin (tbb.cols r)) (tbb.end_ (tbb.cols r) - tbb.begin (tbb.cols r));
  [(i, j)].

(** [blocked_range2d<int>(0, input.rows, 0, input.cols)]. *)
Definition full_range (m : Mat Vec3b) : tbb.blocked_range2d :=
  tbb.mkRange2d (tbb.mkRange 0 (rows m)) (tbb.mkRange 0 (cols m)).

(** The function itself, under a schedule of the parallel loop: every task
    performs, pixel by pixel, the steps of the lambda on its sub-range
    (lemma [task_is_lambda]). There is no comparison of the two matrices'
    dimensions anywhere in the function. *)
Definition grayscaleConversion (sch : tbb.schedule) (st : State) : option State :=
  tbb.parallel_for pixel_step sch (full_range (input st)) iterations st.

(** The sub-ranges the call dispatches and the writes it performs. *)
Definition partitions (sch : tbb.schedule) (st : State) : list tbb.blocked_range2d :=
  tbb.dispatched (tbb.splits sch) (full_range (input st)).

Definition writes (sch : tbb.schedule) (st : State) : list (Z * Z) :=
  tbb.trace sch (full_range (input st)) iterations.

(** The sequential reference: one thread runs the loop nest over the whole
    coordinate space, row by row. *)
Definition grayscaleConversion_seq (st : State) : option State :=
  lambda (full_range (input st)) st.

(** The destination has the size of the source, as [main] builds it
    (line 131). *)
Definition same_size (st : State) : Prop :=
  rows (output st) = rows (input st) ∧ cols (output st) = cols (input st).

(** Both matrices are well formed. *)
Definition State_ok (st : State) : Prop :=
  Mat_ok (input st) ∧ Mat_ok (output st).

(** ** Concrete inputs *)

(** The source grid of the 2x2 scenario. *)
Definition scenario_input : Mat Vec3b :=
  mkMat 2 2 [mkVec3b 10 20 30; mkVec3b 40 50 60; mkVec3b 70 80 90; mkVec3b 100 110 120].

(** A destination for the scenario, not yet written, and a schedule that
    cuts the rows, then the columns of the lower half, and interleaves the
    three tasks. *)
Definition scenario_state : State :=
  mkState scenario_input (mkMat 2 2 [0; 0; 0; 0]).

Definition scenario_schedule : tbb.schedule :=
  tbb.mkSchedule (tbb.SplitRows 1 tbb.Leaf (tbb.SplitCols 1 tbb.Leaf tbb.Leaf))
    [2; 0; 1; 7; 0]%nat.

(** A 1x1 source with a 2x2 destination: the dimensions do not match. *)
Definition mismatched_state : State :=
  mkState (mkMat 1 1 [mkVec3b 10 20 30]) (mkMat 2 2 [7; 7; 7; 7]).

(** ** Vocabulary for the statements *)

(** [p] lies inside [r], and is itself a non-empty rectangle. *)
Definition subrange (p r : tbb.blocked_range2d) : Prop :=
  tbb.begin (tbb.rows r) ≤ tbb.begin (tbb.rows p) ∧
  tbb.begin (tbb.rows p) < tbb.end_ (tbb.rows p) ∧
  tbb.end_ (tbb.rows p) ≤ tbb.end_ (tbb.rows r) ∧
  tbb.begin (tbb.cols r) ≤ tbb.begin (tbb.cols p) ∧
  tbb.begin (tbb.cols p) < tbb.end_ (tbb.cols p) ∧
  tbb.end_ (tbb.cols p) ≤ tbb.end_ (tbb.cols r).

(** No coordinate lies in both [p] and [q]. *)
Definition disjoint (p q : tbb.blocked_range2d) : Prop :=
  ∀ ij, tbb.contains p ij → ¬ tbb.contains q ij.

(** The ranges at two different positions of [l] are disjoint. *)
Definition pairwise_disjoint (l : list tbb.blocked_range2d) : Prop :=
  ∀ a b p q, a ≠ b → l !! a = Some p → l !! b = Some q → disjoint p q.

(** The sub-ranges [parts] cover the coordinate space of [m] and nothing
    else. *)
Definition covers (parts : list tbb.blocked_range2d) (m : Mat Vec3b) : Prop :=
  ∀ ij, in_bounds m ij.1 ij.2 ↔ ∃ p, p ∈ parts ∧ tbb.contains p ij.

(** The states a run of the steps [l] from [s] goes through, [s] first; the
    list ends where a step fails. *)
Fixpoint states_of {I S : Type} (step : I → S → option S) (l : list I) (s : S)
  : list S :=
  s :: match l with
       | [] => []
       | x :: l' =>
           match step x s with
           | Some s' => states_of step l' s'
           | None => []
           end
       end.

(** The pixel steps at the coordinates [l], run from [st], write every
    element of the coordinate space exactly once: every coordinate of the
    space is the coordinate of exactly one step and no other coordinate
    occurs; no step fails; and each step, taking the state [s] to [s'],
    stores the gray value in the destination element at its own coordinate
    and leaves every other destination element as it was in [s]. *)
Definition written_once (l : list (Z * Z)) (st : State) : Prop :=
  NoDup l ∧
  (∀ ij, ij ∈ l ↔ in_bounds (input st) ij.1 ij.2) ∧
  length (states_of pixel_step l st) = S (length l) ∧
  ∀ k x s s',
    l !! k = Some x →
    states_of pixel_step l st !! k = Some s →
    states_of pixel_step l st !! S k = Some s' →
    ∀ e, in_bounds (output st) e.1 e.2 →
      at_ (output s') e.1 e.2 =
        if decide (e = x) then toGray <$> at_ (input st) e.1 e.2
        else at_ (output s) e.1 e.2.

(** The steps performed when the sub-ranges [parts] are dispatched and the
    workers pick as [picks] says: the steps of the workers' phase, then
    those of the join. *)
Definition steps_of (picks : list nat) (parts : list tbb.blocked_range2d)
  : list (Z * Z) :=
  let '(tr, pool) := tbb.workers_trace picks (iterations <$> parts) in
  tr ++ concat pool.

(** The state in which every element of the output buffer holds the gray
    value of the input element at the same position. *)
Definition gray_image (st : State) : State :=
  mkState (input st)
    (mkMat (rows (output st)) (cols (output st)) (toGray <$> data (input st))).

(** ** [main] (source lines 47-160)

    What [main] reads comes from a [World]; what it prints, sleeps, reads,
    writes and shows is recorded as a sequence of [event]s. *)

Module std.

(** [s.find_last_of(c)]: the position of the last [c] in [s]; [None] is
    [string::npos]. *)
Fixpoint find_last_of (s : string) (c : ascii) : option nat :=
  match s with
  | EmptyString => None
  | String a s' =>
      match find_last_of s' c with
      | Some k => Some (S k)
      | None => if decide (a = c) then Some 0%nat else None
      end
  end.

(** [s.substr(pos)]: the characters from position [pos] to the end; [None]
    is the [out_of_range] exception thrown when [pos] is beyond the length. *)
Fixpoint substr (s : string) (pos : nat) : option string :=
  match pos, s with
  | O, _ => Some s
  | S pos', String _ s' => substr s' pos'
  | S _, EmptyString => None
  end.

(** [::tolower] in the "C" locale, the only one the program runs in: the
    letters [A]..[Z] (65..90) move to [a]..[z], every other character is
    kept. *)
Definition tolower (c : ascii) : ascii :=
  if decide (65 ≤ nat_of_ascii c ≤ 90)%nat
  then ascii_of_nat (nat_of_ascii c + 32) else c.

(** [transform(s.begin(), s.end(), s.begin(), f)]. *)
Fixpoint transform (f : ascii → ascii) (s : string) : string :=
  match s with
  | EmptyString => EmptyString
  | String a s' => String (f a) (transform f s')
  end.

(** [cin >> s]: the next whitespace-delimited token of the input; when the
    input is exhausted the extraction fails and leaves [s] empty. *)
Definition extract (cin : list string) : string * list string :=
  match cin with
  | [] => (EmptyString, [])
  | token :: rest => (token, rest)
  end.

Definition endl : string := String "010" EmptyString.

End std.

(** The flag passed to [namedWindow]. *)
Inductive WindowFlags : Type := WINDOW_GUI_NORMAL.

(** What the program does to the outside, in order. *)
Inductive event : Type :=
| Cout (text : string)
| Cerr (text : string)
| SleepFor (seconds : Z)
| Imread (path : string)
| Imwrite (path : string) (img : Mat Z)
| NamedWindow (name : string) (flags : WindowFlags)
| ImshowColor (name : string) (img : Mat Vec3b)
| ImshowGray (name : string) (img : Mat Z)
| WaitKey (delay : Z).

(** What the program gets from the outside: the tokens on standard input;
    what [filesystem::exists] answers for a path, [None] when it throws
    [filesystem_error] (the status of the path cannot be determined); what
    [imread] decodes from a path (an empty matrix when it cannot); which
    calls into OpenCV raise a [cv::Exception] instead of returning (as
    [imwrite] does for an empty matrix or for a name without a known
    extension, and [imshow] for an empty matrix); the bytes found in
    freshly allocated memory; and the schedule of the parallel loop. *)
Record World : Type := mkWorld {
  w_cin : list string;
  w_exists : string → option bool;
  w_imread : string → Mat Vec3b;
  w_raises : event → bool;
  w_uninit : nat → Z;
  w_schedule : tbb.schedule
}.

(** A run: the value [main] returns, and the events up to the point where
    the run leaves [main]. [main] catches nothing, so the run returns no
    value ([None]) when [substr], [filesystem::exists] or a call into
    OpenCV throws, and when the conversion accesses a matrix outside its
    bounds. Exhaustion of memory is not modelled. *)
Record Run : Type := mkRun { exit_code : option Z; events : list event }.

(** A call into OpenCV: it is recorded; then either it raises, which ends
    the run, or it returns and the run goes on. *)
Definition opencv_call (w : World) (call : event) (before : list event)
    (continue : list event → Run) : Run :=
  if w_raises w call then mkRun None (before ++ [call])
  else continue (before ++ [call]).

(** Calls into OpenCV one after the other. *)
Fixpoint opencv_calls (w : World) (calls : list event) (before : list event)
    (continue : list event → Run) : Run :=
  match calls with
  | [] => continue before
  | call :: rest =>
      opencv_call w call before (λ ev, opencv_calls w rest ev continue)
  end.

(** Lines 150-157: the result is written, both images are shown, a key is
    waited for. *)
Definition output_calls (name : string) (colorImage : Mat Vec3b)
    (grayscaleImage : Mat Z) : list event :=
  [ Imwrite name grayscaleImage;
    NamedWindow "Input Image" WINDOW_GUI_NORMAL;
    ImshowColor "Input Image" colorImage;
    NamedWindow "Grayscaled Image" WINDOW_GUI_NORMAL;
    ImshowGray "Grayscaled Image" grayscaleImage;
    WaitKey 0 ].

(** [Mat(rows, cols, CV_8UC1)]: a matrix of the given size over memory that
    is not initialised. *)
Definition Mat_create (rows cols : Z) (memory : nat → Z) : Mat Z :=
  mkMat rows cols (memory <$> seq 0 (Z.to_nat (rows * cols))).

(** Line 81. *)
Definition supported_extensions : list string :=
  [".jpg"; ".png"; ".bmp"; ".jpeg"; ".tiff"].

(** Lines 88-94: the loop that looks the extension up, leaving at the
    first match. *)
Fixpoint is_supported (exts : list string) (extension : string) : bool :=
  match exts with
  | [] => false
  | user_ext :: rest =>
      if decide (user_ext = extension) then true else is_supported rest extension
  end.

(** The four error exits (lines 70-74, 101-105, 109-113, 117-121): a
    message on [cerr], two seconds of sleep, the return code. *)
Definition error_exit (before : list event) (message : string) (code : Z) : Run :=
  mkRun (Some code) (before ++ [Cerr (message +:+ std.endl); SleepFor 2]).

(** Lines 139-149: the name the result is saved under, and whether the
    default was taken. *)
Definition result_name (result extension : string) : string * bool :=
  if decide (result = EmptyString ∨ (255 < String.length result)%nat)
  then ("grayscaled_image", true)
  else (result +:+ extension, false).

(** Lines 123-159, entered once [colorImage] has been read. *)
Definition main_convert (w : World) (before : list event) (cin1 : list string)
    (file_name extension : string) (colorImage : Mat Vec3b) : Run :=
  let width := cols colorImage in
  let height := rows colorImage in
  let ev1 := before ++
    [ Cout ("Input Image (colorImage) read successfully!" +:+ std.endl);
      Cout ("Image width: " +:+ pretty width +:+ "px, " +:+
            "Image height: " +:+ pretty height +:+ "px" +:+ std.endl) ] in
  let grayscaleImage := Mat_create (rows colorImage) (cols colorImage) (w_uninit w) in
  match grayscaleConversion (w_schedule w) (mkState colorImage grayscaleImage) with
  | None => mkRun None ev1
  | Some st =>
      let ev2 := ev1 ++
        [ Cout ("Grayscale of Image: " +:+ file_name +:+ " done!" +:+ std.endl);
          Cout "Please name the result grayscaled image --> " ] in
      let '(result, _) := std.extract cin1 in
      let '(name, defaulted) := result_name result extension in
      let ev3 := ev2 ++
        (if defaulted
         then [Cout ("Invalid name, using default filename 'grayscaled_image' instead"
                     +:+ std.endl)]
         else []) in
      opencv_calls w (output_calls name (input st) (output st)) ev3
        (mkRun (Some 0))
  end.

(** What lines 123-148 have added to the events when the result is about
    to be written. *)
Definition progress_log (before : list event) (file_name : string)
    (colorImage : Mat Vec3b) (defaulted : bool) : list event :=
  ((before ++
    [ Cout ("Input Image (colorImage) read successfully!" +:+ std.endl);
      Cout ("Image width: " +:+ pretty (cols colorImage) +:+ "px, " +:+
            "Image height: " +:+ pretty (rows colorImage) +:+ "px" +:+ std.endl) ]) ++
   [ Cout ("Grayscale of Image: " +:+ file_name +:+ " done!" +:+ std.endl);
     Cout "Please name the result grayscaled image --> " ]) ++
  (if defaulted
   then [Cout ("Invalid name, using default filename 'grayscaled_image' instead"
               +:+ std.endl)]
   else []).

(** Lines 77-122, entered with the extension as typed: lower-casing, the
    length check, the lookup, the existence check and the read. *)
Definition main_validate (w : World) (before : list event) (cin1 : list string)
    (file_name extension0 : string) : Run :=
  let extension := std.transform std.tolower extension0 in
  if decide (4 ≤ String.length file_name ∧ String.length file_name < 256)%nat then
    if is_supported supported_extensions extension then
      match w_exists w file_name with
      | Some true =>
          opencv_call w (Imread file_name) before (λ ev,
            main_convert w ev cin1 file_name extension (w_imread w file_name))
      | Some false =>
          error_exit before "ERROR: Filename with supported extension not found!" 2
      | None => mkRun None before
      end
    else
      error_exit before
        "ERROR: Unsupported image file format! (Supported formats: .jpg, .png, .bmp, .jpeg, .tiff)"
        3
  else
    error_exit before
      "ERROR: Full filename length invalid! (filename must be between 4-255 chars)" 4.

(** Lines 48 and 60: what is printed before the file name is read. *)
Definition main_banner : list event :=
  [ Cout ("AUTHOR: George Ntolias" +:+ std.endl);
    Cout "Please insert the name (including the file extension) of the image file you want to grayscale --> " ].

(** [main], lines 47-160. *)
Definition main (w : World) : Run :=
  let '(file_name, cin1) := std.extract (w_cin w) in
  let no_extension := error_exit main_banner "ERROR: File extension not found!" 1 in
  match std.find_last_of file_name "." with
  | Some extension_dot_pos =>
      if decide (extension_dot_pos < String.length file_name)%nat then
        match std.substr file_name extension_dot_pos with
        | Some extension => main_validate w main_banner cin1 file_name extension
        | None => mkRun None main_banner
        end
      else no_extension
  | None => no_extension
  end.

(** The file name and the result name a world supplies. *)
Definition typed_file_name (w : World) : string := (std.extract (w_cin w)).1.
Definition typed_result (w : World) : string :=
  (std.extract (std.extract (w_cin w)).2).1.

(** The gray matrix of a colour matrix: same size, every element the gray
    value of the element at the same position. *)
Definition gray_of (img : Mat Vec3b) : Mat Z :=
  mkMat (rows img) (cols img) (toGray <$> data img).

(** The extension [main] works with: from the last dot on, in lower case. *)
Definition extension_of (file_name : string) : option string :=
  pos ← std.find_last_of file_name ".";
  std.transform std.tolower <$> std.substr file_name pos.

(** The code with which [main] turns a file name down, given the answer
    of [filesystem::exists]; [None] when it does not turn it down. *)
Definition rejection (file_name : string) (found : option bool) : option Z :=
  match extension_of file_name with
  | None => Some 1
  | Some e =>
      if decide (4 ≤ String.length file_name ∧ String.length file_name < 256)%nat
      then
        if decide (e ∈ supported_extensions) then
          match found with Some false => Some 2 | _ => None end
        else Some 3
      else Some 4
  end.

(** The calls into OpenCV of a run that reads the file and gets to the
    end, when the extension is [e]. *)
Definition success_calls (w : World) (e : string) : list event :=
  Imread (typed_file_name w) ::
  output_calls (result_name (typed_result w) e).1
    (w_imread w (typed_file_name w)) (gray_of (w_imread w (typed_file_name w))).

(** Whether an event is a call into OpenCV. *)
Definition is_opencv_call (e : event) : bool :=
  match e with
  | Imread _ | Imwrite _ _ | NamedWindow _ _ | ImshowColor _ _ | ImshowGray _ _
  | WaitKey _ => true
  | Cout _ | Cerr _ | SleepFor _ => false
  end.

(** ** Concrete worlds *)

(** A world in which just the file [Photo.JPG] exists and no call into
    OpenCV raises. *)
Definition demo_world (tokens : list string) : World :=
  mkWorld tokens (λ path, Some (bool_decide (path = "Photo.JPG")))
    (λ _, scenario_input) (λ _, false) (λ k, Z.of_nat k) scenario_schedule.

(** The same world, except that [imwrite] raises. *)
Definition unwritable_world (tokens : list string) : World :=
  mkWorld tokens (λ path, Some (bool_decide (path = "Photo.JPG")))
    (λ _, scenario_input)
    (λ call, match call with Imwrite _ _ => true | _ => false end)
    (λ k, Z.of_nat k) scenario_schedule.

(** * Properties *)

(** ** Machine arithmetic *)

Lemma wrap_int_id z : is_int z → wrap_int z = z.
Proof.
  unfold is_int, INT_MIN, INT_MAX, wrap_int. intros Hz.
  rewrite Z.mod_small; lia.
Qed.

Lemma wrap_int_range z : is_int (wrap_int z).
Proof.
  unfold is_int, INT_MIN, INT_MAX, wrap_int.
  pose proof (Z.mod_pos_bound (z + 2 ^ 31) (2 ^ 32)). lia.
Qed.

Lemma int_add_exact a b : is_int (a + b) → int_add a b = a + b.
Proof. apply wrap_int_id. Qed.

Lemma is_uchar_is_int z : is_uchar z → is_int z.
Proof. unfold is_uchar, is_int, UCHAR_MAX, INT_MIN, INT_MAX. lia. Qed.

(** ** The kernel *)

Section kernel.
Variable v : Vec3b.
Hypothesis Hv : Vec3b_ok v.

Lemma sum_range : 0 ≤ val0 v + val1 v + val2 v ≤ 765.
Proof. destruct Hv as (H0 & H1 & H2). unfold is_uchar, UCHAR_MAX in *. lia. Qed.

Lemma sum_no_overflow :
  int_add (val0 v) (val1 v) = val0 v + val1 v ∧
  int_add (int_add (val0 v) (val1 v)) (val2 v) = val0 v + val1 v + val2 v.
Proof.
  destruct Hv as (H0 & H1 & H2). unfold is_uchar, UCHAR_MAX in *.
  assert (E : int_add (val0 v) (val1 v) = val0 v + val1 v).
  { apply int_add_exact. unfold is_int, INT_MIN, INT_MAX. lia. }
  split; [exact E|]. rewrite E. apply int_add_exact.
  unfold is_int, INT_MIN, INT_MAX. lia.
Qed.

Lemma gray_value_quot : gray_value v = (val0 v + val1 v + val2 v) `quot` 3.
Proof.
  unfold gray_value. rewrite (proj2 sum_no_overflow).
  pose proof sum_range as Hs.
  unfold int_div. apply wrap_int_id.
  rewrite Z.quot_div_nonneg by lia.
  unfold is_int, INT_MIN, INT_MAX.
  pose proof (Z.div_pos (val0 v + val1 v + val2 v) 3).
  pose proof (Z.div_le_upper_bound (val0 v + val1 v + val2 v) 3 765). lia.
Qed.

Lemma gray_value_div : gray_value v = (val0 v + val1 v + val2 v) `div` 3.
Proof.
  rewrite gray_value_quot. pose proof sum_range. apply Z.quot_div_nonneg; lia.
Qed.

Lemma gray_value_range : 0 ≤ gray_value v ≤ 255.
Proof.
  rewrite gray_value_div. pose proof sum_range as Hs. split.
  - apply Z.div_pos; lia.
  - apply Z.div_le_upper_bound; lia.
Qed.

Lemma toGray_gray_value : toGray v = gray_value v.
Proof.
  unfold toGray, static_cast_uchar. pose proof gray_value_range.
  apply Z.mod_small. lia.
Qed.
End kernel.

(** ** Loops and step sequences *)

Section run_steps.
Context {I S : Type}.
Implicit Types (step : I → S → option S) (l : list I) (s : S).

Lemma run_steps_app step l1 l2 s :
  run_steps step (l1 ++ l2) s = run_steps step l1 s ≫= run_steps step l2.
Proof.
  revert s. induction l1 as [|x l1 IH]; intros s; simpl; [done|].
  destruct (step x s) as [s'|]; simpl; [apply IH|done].
Qed.

Lemma run_steps_ext step1 step2 l s :
  (∀ x s', x ∈ l → step1 x s' = step2 x s') →
  run_steps step1 l s = run_steps step2 l s.
Proof.
  revert s. induction l as [|x l IH]; intros s Hext; simpl; [done|].
  rewrite Hext by left.
  destruct (step2 x s) as [s'|]; simpl; [|done].
  apply IH. intros y s'' Hy. apply Hext. by right.
Qed.

Lemma run_steps_bind {J : Type} step (f : J → list I) (l : list J) s :
  run_steps step (l ≫= f) s = run_steps (λ x, run_steps step (f x)) l s.
Proof.
  revert s. induction l as [|x l IH]; intros s; simpl; [done|].
  rewrite run_steps_app.
  destruct (run_steps step (f x) s) as [s'|]; simpl; [apply IH|done].
Qed.

(** Steps that commute pairwise can be run in any order. *)
Lemma run_steps_Permutation step l1 l2 s :
  (∀ x y s', step x s' ≫= step y = step y s' ≫= step x) →
  l1 ≡ₚ l2 → run_steps step l1 s = run_steps step l2 s.
Proof.
  intros Hcomm Hperm. revert s.
  induction Hperm as [|x l1 l2 _ IH|x y l|l1 l2 l3 _ IH1 _ IH2]; intros s; simpl.
  - done.
  - destruct (step x s); simpl; [apply IH|done].
  - pose proof (Hcomm y x s) as Hc.
    destruct (step y s) as [sy|], (step x s) as [sx|]; simpl in *.
    + destruct (step x sy) as [sxy|], (step y sx) as [syx|]; simpl; congruence.
    + by destruct (step x sy).
    + by destruct (step y sx).
    + done.
  - by rewrite IH1, IH2.
Qed.
End run_steps.

Lemma for_count_run_steps {St : Type} (body : Z → St → option St) n i s :
  INT_MIN ≤ i → i + Z.of_nat n ≤ INT_MAX →
  for_count n i body s = run_steps body (seqZ i (Z.of_nat n)) s.
Proof.
  revert i s. induction n as [|n IH]; intros i s Hlo Hhi; [done|].
  rewrite seqZ_cons by lia. simpl.
  destruct (body i s) as [s'|]; simpl; [|done].
  rewrite int_add_exact by (unfold is_int; lia).
  replace (Z.pred (Z.of_nat (S n))) with (Z.of_nat n) by lia.
  replace (Z.succ i) with (i + 1) by lia.
  apply IH; lia.
Qed.

Lemma for_int_run_steps {St : Type} (body : Z → St → option St) b e s :
  INT_MIN ≤ b → e ≤ INT_MAX →
  for_int b e body s = run_steps body (seqZ b (e - b)) s.
Proof.
  intros Hb He. unfold for_int.
  destruct (decide (b < e)) as [Hlt|Hge].
  - rewrite for_count_run_steps by lia. by rewrite Z2Nat.id by lia.
  - replace (Z.to_nat (e - b)) with 0%nat by lia. by rewrite seqZ_nil by lia.
Qed.

(** The loop nest of the lambda performs [pixel_step] at each of its
    [iterations], in order. *)
Lemma lambda_iterations r st :
  range_ok r → lambda r st = run_steps pixel_step (iterations r) st.
Proof.
  intros (Hrb & Hre & Hcb & Hce). unfold lambda, iterations.
  rewrite for_int_run_steps by done. rewrite run_steps_bind.
  apply run_steps_ext. intros i s' _.
  rewrite for_int_run_steps by done. rewrite run_steps_bind.
  apply run_steps_ext. intros j s'' _. simpl.
  by destruct (pixel_step (i, j) s'').
Qed.

(** ** Matrix accesses *)

Section mat.
Context {T : Type}.
Implicit Types (m : Mat T) (i j : Z) (v : T).

Lemma offset_inj m i j i' j' :
  in_bounds m i j → in_bounds m i' j' →
  offset m i j = offset m i' j' → i = i' ∧ j = j'.
Proof.
  unfold in_bounds, offset. intros [Hi Hj] [Hi' Hj'] Heq.
  apply Z2Nat.inj in Heq; [|nia..].
  assert (i = i') by nia. subst i'. lia.
Qed.

Lemma offset_lt m i j :
  in_bounds m i j → (offset m i j < Z.to_nat (rows m * cols m))%nat.
Proof. unfold in_bounds, offset. intros [Hi Hj]. apply Z2Nat.inj_lt; nia. Qed.

Lemma set_at_Some m i j v m' :
  set_at m i j v = Some m' ↔
  in_bounds m i j ∧ (offset m i j < length (data m))%nat ∧
  m' = mkMat (rows m) (cols m) (<[offset m i j := v]> (data m)).
Proof.
  unfold set_at. repeat case_decide.
  - split; [by intros [= <-]|by intros (_ & _ & ->)].
  - split; [done|by intros (_ & ? & _)].
  - split; [done|by intros (? & _)].
Qed.

Lemma set_at_None m i j v :
  set_at m i j v = None ↔
  ¬ (in_bounds m i j ∧ (offset m i j < length (data m))%nat).
Proof.
  unfold set_at. repeat case_decide.
  - split; [done|by intros []].
  - split; [by intros _ [_ ?]|done].
  - split; [by intros _ [? _]|done].
Qed.

Lemma at_in_bounds m i j : in_bounds m i j → at_ m i j = data m !! offset m i j.
Proof. intros Hb. unfold at_. by rewrite decide_True. Qed.

Lemma at_Some_ok m i j :
  Mat_ok m → in_bounds m i j → is_Some (at_ m i j).
Proof.
  intros (_ & _ & Hlen) Hb. unfold at_. rewrite decide_True by done.
  apply lookup_lt_is_Some. rewrite Hlen. by apply offset_lt.
Qed.
End mat.

(** ** One pixel *)

Lemma pixel_step_Some ij st st' :
  pixel_step ij st = Some st' ↔
  ∃ v, at_ (input st) ij.1 ij.2 = Some v ∧
       in_bounds (output st) ij.1 ij.2 ∧
       (offset (output st) ij.1 ij.2 < length (data (output st)))%nat ∧
       st' = mkState (input st)
               (mkMat (rows (output st)) (cols (output st))
                  (<[offset (output st) ij.1 ij.2 := toGray v]> (data (output st)))).
Proof.
  unfold pixel_step. destruct (at_ (input st) ij.1 ij.2) as [v|]; simpl.
  - destruct (set_at (output st) ij.1 ij.2 (toGray v)) as [o|] eqn:Eo; simpl.
    + apply set_at_Some in Eo as (Hb & Hl & ->). split.
      * intros [= <-]. by exists v.
      * by intros (? & [= <-] & _ & _ & ->).
    + apply set_at_None in Eo. split; [done|].
      intros (? & _ & Hb & Hl & _). by destruct Eo.
  - split; [done|]. by intros (? & ? & _).
Qed.

Lemma pixel_step_is_Some ij st : is_Some (pixel_step ij st) ↔ ready ij st.
Proof.
  unfold ready, is_Some. setoid_rewrite pixel_step_Some. split.
  - intros (st' & v & Hv & Hb & Hl & _). split; [by exists v|done].
  - intros ([v Hv] & Hb & Hl). eexists. by exists v.
Qed.

(** A step changes neither the input nor the shape of the output. *)
Lemma pixel_step_frame ij st st' :
  pixel_step ij st = Some st' →
  input st' = input st ∧ rows (output st') = rows (output st) ∧
  cols (output st') = cols (output st) ∧
  length (data (output st')) = length (data (output st)).
Proof.
  intros (v & _ & _ & _ & ->)%pixel_step_Some. simpl.
  by rewrite length_insert.
Qed.

Lemma pixel_step_ready ij ij' st st' :
  pixel_step ij st = Some st' → ready ij' st' ↔ ready ij' st.
Proof.
  intros (Hin & Hr & Hc & Hlen)%pixel_step_frame.
  unfold ready, in_bounds, offset. by rewrite Hin, Hr, Hc, Hlen.
Qed.

Lemma pixel_step_None_preserved ij ij' st st' :
  pixel_step ij st = Some st' → pixel_step ij' st = None → pixel_step ij' st' = None.
Proof.
  intros Hst Hn. apply eq_None_not_Some. rewrite pixel_step_is_Some.
  rewrite (pixel_step_ready _ _ _ _ Hst). rewrite <- pixel_step_is_Some.
  by rewrite Hn; intros [? ?].
Qed.

(** Two steps commute: they read the input only, and write different
    elements unless they are the same step. *)
Lemma pixel_step_comm x y st :
  pixel_step x st ≫= pixel_step y = pixel_step y st ≫= pixel_step x.
Proof.
  destruct (pixel_step x st) as [sx|] eqn:Ex, (pixel_step y st) as [sy|] eqn:Ey; simpl.
  - pose proof Ex as (vx & Hvx & Hbx & Hlx & ->)%pixel_step_Some.
    pose proof Ey as (vy & Hvy & Hby & Hly & ->)%pixel_step_Some.
    destruct (decide (x = y)) as [->|Hne]; [congruence|].
    assert (Hoff : offset (output st) x.1 x.2 ≠ offset (output st) y.1 y.2).
    { intros Heq. apply offset_inj in Heq as [? ?]; [|done..].
      apply Hne. by apply injective_projections. }
    unfold pixel_step; simpl. rewrite Hvx, Hvy; simpl.
    unfold set_at, in_bounds, offset in *; simpl.
    rewrite !decide_True by (rewrite ?length_insert; done). simpl.
    by rewrite list_insert_insert_ne.
  - eauto using pixel_step_None_preserved.
  - symmetry. eauto using pixel_step_None_preserved.
  - done.
Qed.

Lemma run_pixel_steps_Permutation l1 l2 st :
  l1 ≡ₚ l2 → run_steps pixel_step l1 st = run_steps pixel_step l2 st.
Proof. apply run_steps_Permutation. intros x y s'. apply pixel_step_comm. Qed.

(** ** The scheduler *)

Section scheduler.
Context {I S : Type} (step : I → S → option S).
Implicit Types (pool : list (list I)) (ks : list nat).

(** Taking the next step of task [k] removes it from the pending steps. *)
Lemma concat_take_step pool k x rest :
  pool !! k = Some (x :: rest) → concat pool ≡ₚ x :: concat (<[k := rest]> pool).
Proof.
  revert k. induction pool as [|task pool IH]; intros [|k] Hk; simplify_eq/=.
  - done.
  - rewrite (IH k) by done. by rewrite Permutation_middle.
Qed.

(** Whatever the picks, the steps performed and the steps left are
    together the steps of the pool. *)
Lemma workers_trace_Permutation ks pool :
  (tbb.workers_trace ks pool).1 ++ concat (tbb.workers_trace ks pool).2 ≡ₚ concat pool.
Proof.
  revert pool. induction ks as [|k ks IH]; intros pool; simpl; [done|].
  destruct (pool !! k) as [[|x rest]|] eqn:Ek; [apply IH| |apply IH].
  specialize (IH (<[k := rest]> pool)).
  destruct (tbb.workers_trace ks (<[k := rest]> pool)) as [tr pool']; simpl in *.
  by rewrite IH, <- concat_take_step.
Qed.

(** Running the workers and then joining performs the steps of the trace. *)
Lemma run_workers_join ks pool s :
  tbb.run_workers step ks pool s ≫= (λ '(pool', s'), tbb.join step pool' s') =
  run_steps step ((tbb.workers_trace ks pool).1 ++ concat (tbb.workers_trace ks pool).2) s.
Proof.
  revert pool s. induction ks as [|k ks IH]; intros pool s; simpl; [done|].
  destruct (pool !! k) as [[|x rest]|] eqn:Ek; [apply IH| |apply IH].
  specialize (IH (<[k := rest]> pool)).
  destruct (tbb.workers_trace ks (<[k := rest]> pool)) as [tr pool']; simpl in *.
  destruct (step x s) as [s'|]; simpl; [apply IH|done].
Qed.

(** Every interleaving of the tasks is the trace of some picks. *)
Lemma interleaving_picks pool tr :
  tbb.interleaving pool tr →
  ∃ ks, (tbb.workers_trace ks pool).1 = tr ∧
        concat (tbb.workers_trace ks pool).2 = [].
Proof.
  induction 1 as [pool Hnil|pool k x rest tr Hk _ (ks & Htr & Hleft)].
  - by exists [].
  - exists (k :: ks). simpl. rewrite Hk.
    destruct (tbb.workers_trace ks (<[k := rest]> pool)) as [tr' pool'].
    simpl in *. by subst tr'.
Qed.

Lemma parallel_for_trace sch range body s :
  tbb.parallel_for step sch range body s = run_steps step (tbb.trace sch range body) s.
Proof.
  unfold tbb.parallel_for, tbb.trace. rewrite run_workers_join.
  by destruct (tbb.workers_trace _ _).
Qed.

Lemma trace_Permutation sch range (body : tbb.blocked_range2d → list I) :
  tbb.trace sch range body ≡ₚ concat (body <$> tbb.dispatched (tbb.splits sch) range).
Proof.
  unfold tbb.trace.
  pose proof (workers_trace_Permutation (tbb.picks sch)
                (body <$> tbb.dispatched (tbb.splits sch) range)) as H.
  by destruct (tbb.workers_trace _ _).
Qed.
End scheduler.

(** ** The iteration space *)

Lemma elem_of_iterations r ij : ij ∈ iterations r ↔ tbb.contains r ij.
Proof.
  unfold iterations, tbb.contains. destruct ij as [i j]; simpl.
  rewrite list_elem_of_bind. setoid_rewrite list_elem_of_bind.
  setoid_rewrite elem_of_seqZ. setoid_rewrite list_elem_of_singleton.
  split.
  - intros (i' & (j' & [= -> ->] & Hj) & Hi). lia.
  - intros [Hi Hj]. exists i. split; [|lia]. exists j. split; [done|lia].
Qed.

Lemma NoDup_iterations r : NoDup (iterations r).
Proof.
  unfold iterations. apply NoDup_bind; [| |apply NoDup_seqZ].
  - intros i1 i2 ij _ _ (j1 & ->%list_elem_of_singleton & _)%list_elem_of_bind
      (j2 & [= -> _]%list_elem_of_singleton & _)%list_elem_of_bind. done.
  - intros i _. apply NoDup_bind; [| |apply NoDup_seqZ].
    + intros j1 j2 ij _ _ ->%list_elem_of_singleton [= ->]%list_elem_of_singleton. done.
    + intros j _. apply NoDup_singleton.
Qed.

Lemma bind_nil_const {A B : Type} (l : list A) : l ≫= (λ _, @nil B) = [].
Proof. by induction l. Qed.

Lemma bind_app_Permutation {A B : Type} (f g : A → list B) (l : list A) :
  l ≫= (λ x, f x ++ g x) ≡ₚ (l ≫= f) ++ (l ≫= g).
Proof.
  induction l as [|x l IH]; csimpl; [done|].
  rewrite IH. rewrite <- !(assoc_L (++)). f_equiv.
  rewrite !(assoc_L (++)). f_equiv. apply Permutation_app_comm.
Qed.

Lemma iterations_empty r : tbb.empty2d r → iterations r = [].
Proof.
  unfold tbb.empty2d, tbb.empty, iterations. intros [Hr|Hc].
  - by rewrite (seqZ_nil (tbb.begin (tbb.rows r))) by lia.
  - rewrite (seqZ_nil (tbb.begin (tbb.cols r))) by lia. apply bind_nil_const.
Qed.

Lemma iterations_split_rows R C mid :
  tbb.cuts R mid →
  iterations (tbb.mkRange2d (tbb.lower R mid) C) ++
  iterations (tbb.mkRange2d (tbb.upper R mid) C) =
  iterations (tbb.mkRange2d R C).
Proof.
  unfold tbb.cuts, iterations. intros Hcut; simpl.
  rewrite <- bind_app.
  replace (tbb.end_ R - tbb.begin R) with ((mid - tbb.begin R) + (tbb.end_ R - mid)) by lia.
  rewrite seqZ_app by lia. do 3 f_equal. lia.
Qed.

Lemma iterations_split_cols R C mid :
  tbb.cuts C mid →
  iterations (tbb.mkRange2d R (tbb.lower C mid)) ++
  iterations (tbb.mkRange2d R (tbb.upper C mid)) ≡ₚ
  iterations (tbb.mkRange2d R C).
Proof.
  unfold tbb.cuts, iterations. intros Hcut; simpl.
  rewrite <- bind_app_Permutation.
  replace (tbb.end_ C - tbb.begin C) with ((mid - tbb.begin C) + (tbb.end_ C - mid)) by lia.
  rewrite seqZ_app by lia.
  replace (tbb.begin C + (mid - tbb.begin C)) with mid by lia.
  erewrite list_bind_ext; [done| |done]. intros i; simpl. by rewrite bind_app.
Qed.

(** The sub-ranges of any splitting visit, together, the coordinates of the
    range that was split. *)
Lemma partition_iterations t r :
  concat (iterations <$> tbb.partition t r) ≡ₚ iterations r.
Proof.
  revert r. induction t as [|mid lo IHlo hi IHhi|mid lo IHlo hi IHhi];
    intros [R C]; simpl.
  - by rewrite (right_id_L [] (++)).
  - case_decide as Hcut; simpl; [|by rewrite (right_id_L [] (++))].
    rewrite fmap_app, concat_app, IHlo, IHhi. by rewrite iterations_split_rows.
  - case_decide as Hcut; simpl; [|by rewrite (right_id_L [] (++))].
    rewrite fmap_app, concat_app, IHlo, IHhi. by rewrite iterations_split_cols.
Qed.

Lemma dispatched_iterations t r :
  concat (iterations <$> tbb.dispatched t r) ≡ₚ iterations r.
Proof.
  unfold tbb.dispatched. case_decide as He.
  - by rewrite iterations_empty.
  - apply partition_iterations.
Qed.

(** The writes of a call are the coordinates of the input, each once. *)
Lemma writes_Permutation sch st : writes sch st ≡ₚ iterations (full_range (input st)).
Proof. unfold writes. rewrite trace_Permutation. apply dispatched_iterations. Qed.

(** ** The geometry of a splitting *)

Lemma middle_cuts r : tbb.is_divisible r → tbb.cuts r (tbb.middle r).
Proof.
  unfold tbb.is_divisible, tbb.grainsize, tbb.cuts, tbb.middle. intros Hd.
  pose proof (Z.div_mod (tbb.end_ r - tbb.begin r) 2).
  pose proof (Z.mod_pos_bound (tbb.end_ r - tbb.begin r) 2). lia.
Qed.

Lemma cuts_divisible r mid : tbb.cuts r mid → tbb.is_divisible r.
Proof. unfold tbb.is_divisible, tbb.grainsize, tbb.cuts. lia. Qed.

Lemma partition_within t r p ij :
  p ∈ tbb.partition t r → tbb.contains p ij → tbb.contains r ij.
Proof.
  revert r. induction t as [|mid lo IHlo hi IHhi|mid lo IHlo hi IHhi];
    intros [R C]; simpl.
  - by intros ->%list_elem_of_singleton.
  - case_decide as Hcut; [|by intros ->%list_elem_of_singleton].
    unfold tbb.cuts in Hcut.
    intros [Hp|Hp]%elem_of_app Hc;
      [pose proof (IHlo _ Hp Hc) as Hin|pose proof (IHhi _ Hp Hc) as Hin];
      unfold tbb.contains in *; simpl in *; lia.
  - case_decide as Hcut; [|by intros ->%list_elem_of_singleton].
    unfold tbb.cuts in Hcut.
    intros [Hp|Hp]%elem_of_app Hc;
      [pose proof (IHlo _ Hp Hc) as Hin|pose proof (IHhi _ Hp Hc) as Hin];
      unfold tbb.contains in *; simpl in *; lia.
Qed.

Lemma partition_subrange t r p :
  ¬ tbb.empty2d r → p ∈ tbb.partition t r → subrange p r.
Proof.
  revert r. induction t as [|mid lo IHlo hi IHhi|mid lo IHlo hi IHhi];
    intros [R C] Hne; simpl.
  - intros ->%list_elem_of_singleton.
    unfold tbb.empty2d, tbb.empty, subrange in *; simpl in *. lia.
  - unfold tbb.empty2d, tbb.empty in Hne; simpl in Hne.
    case_decide as Hcut.
    + unfold tbb.cuts in Hcut.
      intros [Hp|Hp]%elem_of_app; [apply IHlo in Hp|apply IHhi in Hp];
        unfold tbb.empty2d, tbb.empty, subrange in *; simpl in *; lia.
    + intros ->%list_elem_of_singleton. unfold subrange; simpl. lia.
  - unfold tbb.empty2d, tbb.empty in Hne; simpl in Hne.
    case_decide as Hcut.
    + unfold tbb.cuts in Hcut.
      intros [Hp|Hp]%elem_of_app; [apply IHlo in Hp|apply IHhi in Hp];
        unfold tbb.empty2d, tbb.empty, subrange in *; simpl in *; lia.
    + intros ->%list_elem_of_singleton. unfold subrange; simpl. lia.
Qed.

Lemma pairwise_disjoint_singleton r : pairwise_disjoint [r].
Proof. intros [|a] [|b] p q Hab Ha Hb; simplify_eq/=. Qed.

Lemma pairwise_disjoint_app l1 l2 :
  pairwise_disjoint l1 → pairwise_disjoint l2 →
  (∀ p q, p ∈ l1 → q ∈ l2 → disjoint p q ∧ disjoint q p) →
  pairwise_disjoint (l1 ++ l2).
Proof.
  intros H1 H2 H12 a b p q Hab Ha Hb.
  apply lookup_app_Some in Ha as [Ha|[Hla Ha]];
    apply lookup_app_Some in Hb as [Hb|[Hlb Hb]].
  - by apply (H1 a b).
  - apply (H12 p q); by eapply list_elem_of_lookup_2.
  - apply (H12 q p); by eapply list_elem_of_lookup_2.
  - apply (H2 (a - length l1)%nat (b - length l1)%nat); [lia|done..].
Qed.

Lemma partition_pairwise_disjoint t r : pairwise_disjoint (tbb.partition t r).
Proof.
  revert r. induction t as [|mid lo IHlo hi IHhi|mid lo IHlo hi IHhi];
    intros [R C]; simpl.
  - apply pairwise_disjoint_singleton.
  - case_decide as Hcut; [|apply pairwise_disjoint_singleton].
    apply pairwise_disjoint_app; [apply IHlo|apply IHhi|].
    intros p q Hp Hq. unfold tbb.cuts in Hcut.
    split; intros ij Hc1 Hc2;
      pose proof (partition_within _ _ _ ij Hp) as Wp;
      pose proof (partition_within _ _ _ ij Hq) as Wq;
      unfold tbb.contains in Wp, Wq; simpl in *; intuition lia.
  - case_decide as Hcut; [|apply pairwise_disjoint_singleton].
    apply pairwise_disjoint_app; [apply IHlo|apply IHhi|].
    intros p q Hp Hq. unfold tbb.cuts in Hcut.
    split; intros ij Hc1 Hc2;
      pose proof (partition_within _ _ _ ij Hp) as Wp;
      pose proof (partition_within _ _ _ ij Hq) as Wq;
      unfold tbb.contains in Wp, Wq; simpl in *; intuition lia.
Qed.

Lemma elem_of_concat_iterations (l : list tbb.blocked_range2d) ij :
  ij ∈ concat (iterations <$> l) ↔ ∃ p, p ∈ l ∧ tbb.contains p ij.
Proof.
  induction l as [|r l IH]; simpl.
  - split; [by intros ?%elem_of_nil|by intros (? & ?%elem_of_nil & _)].
  - rewrite elem_of_app, IH, elem_of_iterations. split.
    + intros [Hr|(p & Hp & Hc)]; [exists r|exists p]; split; try done;
        by constructor.
    + intros (p & [->|Hp]%elem_of_cons & Hc); [by left|right; by exists p].
Qed.

(** Every coordinate of the range lies in some sub-range, and nothing else
    does. *)
Lemma dispatched_cover t r ij :
  tbb.contains r ij ↔ ∃ p, p ∈ tbb.dispatched t r ∧ tbb.contains p ij.
Proof.
  rewrite <- elem_of_concat_iterations, dispatched_iterations.
  by rewrite elem_of_iterations.
Qed.

(** ** What a sequence of pixel steps computes *)

Lemma run_pixel_steps_frame l st st' :
  run_steps pixel_step l st = Some st' →
  input st' = input st ∧ rows (output st') = rows (output st) ∧
  cols (output st') = cols (output st) ∧
  length (data (output st')) = length (data (output st)).
Proof.
  revert st. induction l as [|ij l IH]; intros st; simpl.
  - by intros [= ->].
  - destruct (pixel_step ij st) as [s1|] eqn:E1; simpl; [|done].
    intros (-> & -> & -> & ->)%IH. by apply pixel_step_frame in E1.
Qed.

Lemma run_pixel_steps_is_Some l st :
  (∀ ij, ij ∈ l → ready ij st) → is_Some (run_steps pixel_step l st).
Proof.
  revert st. induction l as [|ij l IH]; intros st Hready; simpl; [done|].
  destruct (pixel_step ij st) as [s1|] eqn:E1; simpl.
  - apply IH. intros ij' Hin. rewrite (pixel_step_ready _ _ _ _ E1).
    apply Hready. by right.
  - assert (is_Some (pixel_step ij st)) as [? ?]; [|congruence].
    apply pixel_step_is_Some, Hready. by left.
Qed.

(** After one step the written element holds the gray value, the others
    are as before. *)
Lemma pixel_step_lookup x st st' ij :
  pixel_step x st = Some st' → in_bounds (output st) ij.1 ij.2 →
  at_ (output st') ij.1 ij.2 =
    if decide (ij = x) then toGray <$> at_ (input st) ij.1 ij.2
    else at_ (output st) ij.1 ij.2.
Proof.
  intros (v & Hv & Hbx & Hlx & ->)%pixel_step_Some Hb.
  cbn [output]. rewrite (at_in_bounds (mkMat _ _ _)) by done. cbn [data].
  change (offset (mkMat _ _ _) ij.1 ij.2) with (offset (output st) ij.1 ij.2).
  case_decide as Heq.
  - subst x. rewrite Hv; simpl. by apply list_lookup_insert_eq.
  - rewrite (at_in_bounds (output st)) by done. apply list_lookup_insert_ne.
    intros Hoff. apply offset_inj in Hoff as [? ?]; [|done..].
    apply Heq. by apply injective_projections.
Qed.

Lemma run_pixel_steps_lookup l st st' ij :
  run_steps pixel_step l st = Some st' → in_bounds (output st) ij.1 ij.2 →
  at_ (output st') ij.1 ij.2 =
    if decide (ij ∈ l) then toGray <$> at_ (input st) ij.1 ij.2
    else at_ (output st) ij.1 ij.2.
Proof.
  revert st. induction l as [|x l IH]; intros st; cbn [run_steps].
  - intros [= ->] _. by rewrite decide_False by apply not_elem_of_nil.
  - destruct (pixel_step x st) as [s1|] eqn:E1; cbn [mbind option_bind]; [|done].
    intros Hrun Hb.
    pose proof (pixel_step_frame _ _ _ E1) as (Hin & Hr & Hc & _).
    rewrite (IH s1) by (unfold in_bounds in *; by rewrite ?Hr, ?Hc).
    rewrite Hin, (pixel_step_lookup _ _ _ ij E1) by done.
    destruct (decide (ij ∈ l)) as [Hl|Hl].
    + by rewrite decide_True by (by right).
    + destruct (decide (ij = x)) as [->|Hx].
      * by rewrite decide_True by left.
      * rewrite decide_False; [done|]. by intros [?|?]%elem_of_cons.
Qed.

(** Every position of a well-formed buffer is the offset of a coordinate. *)
Lemma offset_surj {T} (m : Mat T) (k : nat) :
  Mat_ok m → (k < length (data m))%nat →
  ∃ i j, in_bounds m i j ∧ offset m i j = k.
Proof.
  intros (Hr & Hc & Hlen) Hk. rewrite Hlen in Hk.
  assert (0 < cols m) by nia.
  exists (Z.of_nat k `div` cols m), (Z.of_nat k `mod` cols m).
  pose proof (Z.mod_pos_bound (Z.of_nat k) (cols m)).
  pose proof (Z.div_mod (Z.of_nat k) (cols m)).
  assert (Z.of_nat k < rows m * cols m) by lia.
  assert (0 ≤ Z.of_nat k `div` cols m) by (apply Z.div_pos; lia).
  assert (Z.of_nat k `div` cols m < rows m) by (apply Z.div_lt_upper_bound; lia).
  unfold in_bounds, offset. split; [lia|].
  replace (Z.of_nat k `div` cols m * cols m + Z.of_nat k `mod` cols m)
    with (Z.of_nat k) by lia.
  apply Nat2Z.id.
Qed.

Lemma full_range_contains m ij :
  tbb.contains (full_range m) ij ↔ in_bounds m ij.1 ij.2.
Proof. unfold tbb.contains, full_range, in_bounds; simpl. done. Qed.

Lemma full_range_ok m : Mat_ok m → range_ok (full_range m).
Proof.
  intros (Hr & Hc & _). unfold range_ok, full_range, INT_MIN; simpl. lia.
Qed.

(** On well-formed matrices of which the output is at least as large as
    the input, every step on a coordinate of the input goes through. *)
Lemma ready_full_range st ij :
  State_ok st → rows (input st) ≤ rows (output st) → cols (input st) ≤ cols (output st) →
  ij ∈ iterations (full_range (input st)) → ready ij st.
Proof.
  intros [Hin Hout] Hr Hc Hij.
  apply elem_of_iterations in Hij.
  pose proof (proj1 (full_range_contains _ _) Hij) as Hb.
  assert (in_bounds (output st) ij.1 ij.2) by (unfold in_bounds in *; lia).
  split_and!; [by apply at_Some_ok|done|].
  destruct Hout as (_ & _ & ->). by apply offset_lt.
Qed.

(** On matrices of the same size, visiting every coordinate once, in any
    order, ends in [gray_image]. *)
Lemma run_full_range l st :
  State_ok st → same_size st → l ≡ₚ iterations (full_range (input st)) →
  run_steps pixel_step l st = Some (gray_image st).
Proof.
  intros Hok [Hr Hc] Hperm.
  rewrite (run_pixel_steps_Permutation _ _ _ Hperm).
  destruct (run_pixel_steps_is_Some (iterations (full_range (input st))) st)
    as [st' Hrun].
  { intros ij Hij. apply ready_full_range; [done|lia..|done]. }
  rewrite Hrun. f_equal.
  pose proof (run_pixel_steps_frame _ _ _ Hrun) as (Hin' & Hr' & Hc' & Hlen').
  destruct st' as [i' [r' c' d']]; simpl in *. subst i' r' c'.
  unfold gray_image. do 2 f_equal.
  destruct Hok as [Hokin Hokout].
  assert (Hlen : length (data (input st)) = length (data (output st))).
  { destruct Hokin as (_ & _ & ->), Hokout as (_ & _ & ->). by rewrite Hr, Hc. }
  apply list_eq. intros k. rewrite list_lookup_fmap.
  destruct (decide (k < length (data (output st)))%nat) as [Hk|Hk].
  - destruct (offset_surj (output st) k Hokout Hk) as (i & j & Hb & Hoff).
    pose proof (run_pixel_steps_lookup _ _ _ (i, j) Hrun Hb) as Hlk.
    rewrite decide_True in Hlk
      by (apply elem_of_iterations, full_range_contains;
          unfold in_bounds in *; simpl; lia).
    rewrite !at_in_bounds in Hlk by (unfold in_bounds in *; simpl; lia).
    unfold offset in *; simpl in *. by rewrite <- Hc, Hoff in Hlk.
  - rewrite !lookup_ge_None_2; [done|lia..].
Qed.

(** Whatever interleaving of the dispatched tasks is run, some schedule
    has it as its writes. *)
Lemma interleaving_writes t st tr :
  tbb.interleaving (iterations <$> tbb.dispatched t (full_range (input st))) tr →
  ∃ ks, writes (tbb.mkSchedule t ks) st = tr.
Proof.
  intros (ks & Htr & Hleft)%interleaving_picks. exists ks.
  unfold writes, tbb.trace; simpl.
  destruct (tbb.workers_trace ks _) as [tr' pool']; simpl in *.
  by rewrite Hleft, Htr, (right_id_L [] (++)).
Qed.

Lemma grayscaleConversion_trace sch st :
  grayscaleConversion sch st = run_steps pixel_step (writes sch st) st.
Proof. apply parallel_for_trace. Qed.

Lemma grayscaleConversion_gray_image sch st :
  State_ok st → same_size st → grayscaleConversion sch st = Some (gray_image st).
Proof.
  intros Hok Hsz. rewrite grayscaleConversion_trace.
  apply run_full_range; [done..|apply writes_Permutation].
Qed.

Lemma grayscaleConversion_seq_gray_image st :
  State_ok st → same_size st → grayscaleConversion_seq st = Some (gray_image st).
Proof.
  intros Hok Hsz. unfold grayscaleConversion_seq.
  rewrite lambda_iterations by apply full_range_ok, Hok.
  by apply run_full_range.
Qed.

(** Each task of the call is the lambda run on its sub-range. *)
Lemma partitions_range_ok sch st p :
  Mat_ok (input st) → p ∈ partitions sch st → range_ok p.
Proof.
  intros (Hr & Hc & _). unfold partitions, tbb.dispatched.
  case_decide as He; [by intros ?%elem_of_nil|].
  intros Hsub%partition_subrange; [|done].
  unfold subrange, range_ok, full_range, INT_MIN in *; simpl in *. lia.
Qed.

Lemma task_is_lambda sch st p s :
  Mat_ok (input st) → p ∈ partitions sch st →
  lambda p s = run_steps pixel_step (iterations p) s.
Proof. intros Hok Hp. apply lambda_iterations. by eapply partitions_range_ok. Qed.

Lemma gray_image_lookup st i j :
  same_size st → in_bounds (output st) i j →
  at_ (output (gray_image st)) i j = toGray <$> at_ (input st) i j.
Proof.
  intros [Hr Hc] Hb.
  rewrite (at_in_bounds (input st)) by (unfold in_bounds in *; lia).
  rewrite (at_in_bounds (output (gray_image st))) by done.
  unfold offset, gray_image; simpl. by rewrite list_lookup_fmap, Hc.
Qed.

(** ** Splittings *)

Lemma partition_splitting t r : tbb.splitting r (tbb.partition t r).
Proof.
  revert r. induction t as [|mid lo IHlo hi IHhi|mid lo IHlo hi IHhi]; intros r; simpl.
  - constructor.
  - case_decide; [|constructor]. by eapply tbb.splitting_rows.
  - case_decide; [|constructor]. by eapply tbb.splitting_cols.
Qed.

Lemma splitting_partition r parts :
  tbb.splitting r parts → ∃ t, tbb.partition t r = parts.
Proof.
  induction 1 as [r|r mid parts1 parts2 Hcut _ [t1 <-] _ [t2 <-]
                   |r mid parts1 parts2 Hcut _ [t1 <-] _ [t2 <-]].
  - by exists tbb.Leaf.
  - exists (tbb.SplitRows mid t1 t2). simpl. by rewrite decide_True.
  - exists (tbb.SplitCols mid t1 t2). simpl. by rewrite decide_True.
Qed.

Lemma splitting_pairwise_disjoint r parts :
  tbb.splitting r parts → pairwise_disjoint parts.
Proof. intros [t <-]%splitting_partition. apply partition_pairwise_disjoint. Qed.

Lemma splitting_covers m parts :
  tbb.splitting (full_range m) parts → covers parts m.
Proof.
  intros [t <-]%splitting_partition ij.
  rewrite <- full_range_contains, <- elem_of_concat_iterations.
  by rewrite partition_iterations, elem_of_iterations.
Qed.

(** Sub-ranges that are pairwise disjoint hold every coordinate once. *)
Lemma NoDup_concat_iterations parts :
  pairwise_disjoint parts → NoDup (concat (iterations <$> parts)).
Proof.
  induction parts as [|p parts IH]; intros Hd; simpl; [constructor|].
  apply NoDup_app. split_and!.
  - apply NoDup_iterations.
  - intros ij Hp (q & Hq & Hc)%elem_of_concat_iterations.
    apply list_elem_of_lookup_1 in Hq as [b Hb].
    apply elem_of_iterations in Hp.
    by apply (Hd 0%nat (S b) p q ltac:(lia) eq_refl Hb ij).
  - apply IH. intros a b q1 q2 Hab Ha Hb.
    by apply (Hd (S a) (S b)); [lia|..].
Qed.

Lemma steps_of_Permutation picks parts m :
  pairwise_disjoint parts → covers parts m →
  steps_of picks parts ≡ₚ iterations (full_range m).
Proof.
  intros Hd Hc. unfold steps_of.
  pose proof (workers_trace_Permutation picks (iterations <$> parts)) as Hperm.
  destruct (tbb.workers_trace picks (iterations <$> parts)) as [tr pool].
  simpl in Hperm. rewrite Hperm.
  apply NoDup_Permutation.
  - by apply NoDup_concat_iterations.
  - apply NoDup_iterations.
  - intros ij. rewrite elem_of_concat_iterations, elem_of_iterations.
    rewrite full_range_contains. symmetry. apply Hc.
Qed.

(** ** The states of a run *)

Section states_of.
Context {I S : Type} (step : I → S → option S).

Lemma states_of_step l s k x a b :
  l !! k = Some x →
  states_of step l s !! k = Some a →
  states_of step l s !! Datatypes.S k = Some b →
  step x a = Some b.
Proof.
  revert s k. induction l as [|x0 l IH]; intros s k; [by destruct k|].
  destruct k as [|k]; simpl.
  - intros [= <-] [= <-]. destruct (step x0 s) as [s1|]; [|done].
    by destruct l; simpl; intros [= <-].
  - intros Hx. destruct (step x0 s) as [s1|]; [|done]. by apply IH.
Qed.

Lemma states_of_run l s s' :
  run_steps step l s = Some s' →
  length (states_of step l s) = Datatypes.S (length l) ∧
  last (states_of step l s) = Some s'.
Proof.
  revert s. induction l as [|x l IH]; intros s; simpl.
  - by intros [= <-].
  - destruct (step x s) as [s1|]; simpl; [|done].
    intros [Hlen Hlast]%IH. split; [by rewrite Hlen|].
    destruct (states_of step l s1) eqn:E; [done|]. by rewrite last_cons, Hlast.
Qed.
End states_of.

Lemma states_of_frame l st s :
  s ∈ states_of pixel_step l st →
  input s = input st ∧ rows (output s) = rows (output st) ∧
  cols (output s) = cols (output st).
Proof.
  revert st. induction l as [|x l IH]; intros st; simpl.
  - by intros ->%list_elem_of_singleton.
  - intros [->|Hs]%elem_of_cons; [done|].
    destruct (pixel_step x st) as [s1|] eqn:E1; [|by apply elem_of_nil in Hs].
    apply IH in Hs as (-> & -> & ->).
    by apply pixel_step_frame in E1 as (? & ? & ? & _).
Qed.

(** Visiting every coordinate once, in any order, writes every element
    exactly once. *)
Lemma written_once_Permutation l st :
  State_ok st → same_size st → l ≡ₚ iterations (full_range (input st)) →
  written_once l st.
Proof.
  intros Hok Hsize Hperm. split_and!.
  - rewrite Hperm. apply NoDup_iterations.
  - intros ij. rewrite Hperm, elem_of_iterations. apply full_range_contains.
  - by apply (states_of_run _ _ _ _ (run_full_range l st Hok Hsize Hperm)).
  - intros k x s s' Hx Hs Hs' e He.
    pose proof (states_of_step _ _ _ _ _ _ _ Hx Hs Hs') as Hstep.
    apply list_elem_of_lookup_2, states_of_frame in Hs as (Hin & Hr & Hc).
    rewrite (pixel_step_lookup _ _ _ e Hstep)
      by (unfold in_bounds in *; by rewrite Hr, Hc).
    by rewrite Hin.
Qed.

(** ** The model on concrete inputs *)

Example scenario_partitions :
  partitions scenario_schedule scenario_state =
    [ tbb.mkRange2d (tbb.mkRange 0 1) (tbb.mkRange 0 2);
      tbb.mkRange2d (tbb.mkRange 1 2) (tbb.mkRange 0 1);
      tbb.mkRange2d (tbb.mkRange 1 2) (tbb.mkRange 1 2) ].
Proof. reflexivity. Qed.

Example scenario_writes :
  writes scenario_schedule scenario_state = [(1, 1); (0, 0); (1, 0); (0, 1)].
Proof. reflexivity. Qed.

Example scenario_sequential :
  grayscaleConversion_seq scenario_state =
    Some (mkState scenario_input (mkMat 2 2 [20; 50; 80; 110])).
Proof. reflexivity. Qed.

(** The destination buffer before the first step and after each step of
    the scenario's run: one element changes at each step. *)
Example scenario_states :
  (λ s, data (output s)) <$>
    states_of pixel_step (writes scenario_schedule scenario_state) scenario_state =
  [ [0; 0; 0; 0]; [0; 0; 0; 110]; [20; 0; 0; 110]; [20; 0; 80; 110];
    [20; 50; 80; 110] ].
Proof. reflexivity. Qed.

(** A destination smaller than the source: the loop nest uses indices
    outside the destination, which the model marks with [None]. *)
Example smaller_destination :
  grayscaleConversion scenario_schedule (mkState scenario_input (mkMat 1 1 [0])) = None.
Proof. reflexivity. Qed.

(** * The claims *)

Local Ltac uchar_triple :=
  unfold Vec3b_ok, is_uchar, UCHAR_MAX; simpl; lia.

(** C1: on a pixel whose three channels are in 0..255 the kernel returns
    the sum of the channels divided by 3, the division truncating (for these
    non-negative sums, the floor), every channel with the same weight; so
    (0,0,0) gives 0, (255,255,255) gives 255, (255,0,0) gives 85,
    (10,20,30) gives 20 and (1,1,2) gives 1. *)
Theorem toGray_truncated_mean (v : Vec3b) (Hv : Vec3b_ok v) :
  toGray v = (val0 v + val1 v + val2 v) `div` 3 ∧
  toGray v = (val0 v + val1 v + val2 v) `quot` 3 ∧
  toGray (mkVec3b 0 0 0) = 0 ∧
  toGray (mkVec3b 255 255 255) = 255 ∧
  toGray (mkVec3b 255 0 0) = 85 ∧
  toGray (mkVec3b 10 20 30) = 20 ∧
  toGray (mkVec3b 1 1 2) = 1.
Proof.
  rewrite toGray_gray_value by done.
  split; [by apply gray_value_div|].
  split; [by apply gray_value_quot|].
  by vm_compute.
Qed.

Lemma toGray_truncated_mean_witness :
  Vec3b_ok (mkVec3b 200 100 1) ∧ toGray (mkVec3b 200 100 1) = 301 `div` 3.
Proof.
  assert (Hv : Vec3b_ok (mkVec3b 200 100 1)) by uchar_triple.
  split; [exact Hv|]. exact (proj1 (toGray_truncated_mean _ Hv)).
Defined.

(** C3: for every pixel with channels in 0..255, neither addition leaves
    the range of [int] (the sum is at most 765), the quotient is in 0..255,
    and the conversion to [uchar] returns the quotient unchanged. *)
Theorem toGray_no_overflow (v : Vec3b) (Hv : Vec3b_ok v) :
  is_int (val0 v + val1 v) ∧
  is_int (val0 v + val1 v + val2 v) ∧
  int_add (int_add (val0 v) (val1 v)) (val2 v) = val0 v + val1 v + val2 v ∧
  0 ≤ val0 v + val1 v + val2 v ≤ 765 ∧
  is_uchar (gray_value v) ∧
  static_cast_uchar (gray_value v) = gray_value v ∧
  is_uchar (toGray v).
Proof.
  pose proof (sum_range v Hv) as Hs.
  pose proof (gray_value_range v Hv) as Hg.
  pose proof (toGray_gray_value v Hv) as Ht.
  pose proof (proj2 (sum_no_overflow v Hv)) as Ha.
  destruct Hv as (H0 & H1 & H2).
  unfold is_uchar, is_int, UCHAR_MAX, INT_MIN, INT_MAX in *.
  split_and!; try lia. exact Ht.
Qed.

Lemma toGray_no_overflow_witness :
  Vec3b_ok (mkVec3b 255 255 255) ∧ is_uchar (toGray (mkVec3b 255 255 255)).
Proof.
  assert (Hv : Vec3b_ok (mkVec3b 255 255 255)) by uchar_triple.
  split; [exact Hv|]. apply (toGray_no_overflow _ Hv).
Defined.

(** C10: for channel values [a], [b], [c] in 0..255 the kernel gives one
    and the same value on all six orderings of the three channels. *)
Theorem toGray_channel_order (a b c : Z)
    (Ha : is_uchar a) (Hb : is_uchar b) (Hc : is_uchar c) :
  toGray (mkVec3b a c b) = toGray (mkVec3b a b c) ∧
  toGray (mkVec3b b a c) = toGray (mkVec3b a b c) ∧
  toGray (mkVec3b b c a) = toGray (mkVec3b a b c) ∧
  toGray (mkVec3b c a b) = toGray (mkVec3b a b c) ∧
  toGray (mkVec3b c b a) = toGray (mkVec3b a b c).
Proof.
  rewrite !toGray_gray_value, !gray_value_div by done. simpl.
  split_and!; f_equal; lia.
Qed.

Lemma toGray_channel_order_witness :
  toGray (mkVec3b 30 10 200) = toGray (mkVec3b 10 200 30).
Proof.
  assert (H10 : is_uchar 10) by (unfold is_uchar, UCHAR_MAX; lia).
  assert (H200 : is_uchar 200) by (unfold is_uchar, UCHAR_MAX; lia).
  assert (H30 : is_uchar 30) by (unfold is_uchar, UCHAR_MAX; lia).
  apply (toGray_channel_order 10 200 30 H10 H200 H30).
Defined.

Local Ltac mat_ok :=
  unfold State_ok, Mat_ok, same_size, INT_MAX; simpl; repeat split; lia.

(** C2: for every source and every destination of the same size, and for
    every schedule (any splitting of the coordinate space, any interleaving
    of the tasks), the parallel call returns, and returns the very state the
    single-threaded row-major loop nest returns. *)
Theorem parallel_equals_sequential (sch : tbb.schedule) (st : State)
    (Hok : State_ok st) (Hsize : same_size st) :
  ∃ st', grayscaleConversion sch st = Some st' ∧
         grayscaleConversion_seq st = Some st' ∧
         data (output st') = toGray <$> data (input st).
Proof.
  exists (gray_image st). split_and!.
  - by apply grayscaleConversion_gray_image.
  - by apply grayscaleConversion_seq_gray_image.
  - done.
Qed.

Lemma parallel_equals_sequential_witness :
  ∃ st', grayscaleConversion scenario_schedule scenario_state = Some st' ∧
         grayscaleConversion_seq scenario_state = Some st' ∧
         data (output st') = toGray <$> data (input scenario_state).
Proof.
  apply (parallel_equals_sequential scenario_schedule scenario_state); mat_ok.
Defined.

(** C4: for every grid and every schedule, the dispatched sub-ranges are
    non-empty rectangles inside the coordinate space of the input, pairwise
    disjoint, and cover exactly that space, as do the sub-ranges of every
    splitting of that space; and the call writes every element of the
    destination exactly once: every coordinate [(r, c)] with
    [0 <= r < rows] and [0 <= c < cols] is the coordinate of exactly one
    step, each step stores the gray value at its own coordinate and leaves
    every other element as it was, and the state after the last step is the
    state the call returns. The same holds of the steps performed on any
    sub-ranges that are pairwise disjoint and cover the space, whatever
    partitioner produced them. *)
Theorem partitions_disjoint_cover (sch : tbb.schedule) (st : State)
    (Hok : State_ok st) (Hsize : same_size st) :
  (∀ p, p ∈ partitions sch st → subrange p (full_range (input st))) ∧
  pairwise_disjoint (partitions sch st) ∧
  covers (partitions sch st) (input st) ∧
  (∀ parts, tbb.splitting (full_range (input st)) parts →
            pairwise_disjoint parts ∧ covers parts (input st)) ∧
  grayscaleConversion sch st = run_steps pixel_step (writes sch st) st ∧
  is_Some (grayscaleConversion sch st) ∧
  last (states_of pixel_step (writes sch st) st) = grayscaleConversion sch st ∧
  written_once (writes sch st) st ∧
  (∀ parts picks, pairwise_disjoint parts → covers parts (input st) →
                  written_once (steps_of picks parts) st).
Proof.
  split_and!.
  - intros p. unfold partitions, tbb.dispatched.
    case_decide as He; [by intros ?%elem_of_nil|]. by apply partition_subrange.
  - unfold partitions, tbb.dispatched.
    case_decide as He; [|apply partition_pairwise_disjoint].
    intros a b p q _ Ha. by rewrite lookup_nil in Ha.
  - intros ij. rewrite <- full_range_contains. apply dispatched_cover.
  - intros parts Hsplit. split.
    + by eapply splitting_pairwise_disjoint.
    + by apply splitting_covers.
  - apply grayscaleConversion_trace.
  - rewrite grayscaleConversion_gray_image by done. by eexists.
  - rewrite grayscaleConversion_trace.
    pose proof (run_full_range (writes sch st) st Hok Hsize (writes_Permutation sch st))
      as Hrun.
    rewrite Hrun. by apply (states_of_run _ _ _ _ Hrun).
  - apply written_once_Permutation; [done..|apply writes_Permutation].
  - intros parts picks Hd Hc.
    apply written_once_Permutation; [done..|by apply steps_of_Permutation].
Qed.

Lemma partitions_disjoint_cover_witness :
  pairwise_disjoint (partitions scenario_schedule scenario_state) ∧
  written_once (writes scenario_schedule scenario_state) scenario_state.
Proof.
  assert (Hok : State_ok scenario_state) by mat_ok.
  assert (Hsize : same_size scenario_state) by mat_ok.
  pose proof (partitions_disjoint_cover scenario_schedule scenario_state Hok Hsize)
    as (_ & Hd & _ & _ & _ & _ & _ & Hw & _).
  exact (conj Hd Hw).
Defined.

(** C5, as stated, fails: on a 1x1 source and a 2x2 destination, which are
    well formed and differ in both dimensions, the call raises nothing; it
    returns normally and has written element (0, 0) of the destination. *)
Lemma mismatch_not_rejected :
  State_ok mismatched_state ∧
  rows (input mismatched_state) ≠ rows (output mismatched_state) ∧
  cols (input mismatched_state) ≠ cols (output mismatched_state) ∧
  grayscaleConversion scenario_schedule mismatched_state =
    Some (mkState (input mismatched_state) (mkMat 2 2 [20; 7; 7; 7])) ∧
  grayscaleConversion_seq mismatched_state =
    Some (mkState (input mismatched_state) (mkMat 2 2 [20; 7; 7; 7])) ∧
  data (output mismatched_state) ≠ [20; 7; 7; 7].
Proof.
  split; [mat_ok|]. by vm_compute.
Qed.

(** C5, amended: the function compares no dimensions. For every source and
    every destination that is at least as large as the source in both
    dimensions, of equal size or not, the call returns normally; it leaves
    the source and the shape of the destination as they were, stores the
    gray value of the source element at every coordinate of the source, and
    leaves every other element of the destination as it was. *)
Theorem larger_destination_accepted (sch : tbb.schedule) (st : State)
    (Hok : State_ok st)
    (Hrows : rows (input st) ≤ rows (output st))
    (Hcols : cols (input st) ≤ cols (output st)) :
  ∃ st', grayscaleConversion sch st = Some st' ∧
         input st' = input st ∧
         rows (output st') = rows (output st) ∧
         cols (output st') = cols (output st) ∧
         ∀ ij, in_bounds (output st) ij.1 ij.2 →
               at_ (output st') ij.1 ij.2 =
                 if decide (in_bounds (input st) ij.1 ij.2)
                 then toGray <$> at_ (input st) ij.1 ij.2
                 else at_ (output st) ij.1 ij.2.
Proof.
  rewrite grayscaleConversion_trace.
  destruct (run_pixel_steps_is_Some (writes sch st) st) as [st' Hrun].
  { intros ij Hij. apply ready_full_range; [done..|].
    by rewrite <- writes_Permutation. }
  exists st'. pose proof (run_pixel_steps_frame _ _ _ Hrun) as (? & ? & ? & _).
  split_and!; [done..|]. intros ij Hb.
  rewrite (run_pixel_steps_lookup _ _ _ ij Hrun Hb).
  destruct (decide (ij ∈ writes sch st)) as [Hw|Hw];
    rewrite writes_Permutation, elem_of_iterations, full_range_contains in Hw.
  - by rewrite decide_True.
  - by rewrite decide_False.
Qed.

Lemma larger_destination_accepted_witness :
  ∃ st', grayscaleConversion scenario_schedule mismatched_state = Some st' ∧
         input st' = input mismatched_state ∧
         rows (output st') = 2 ∧ cols (output st') = 2 ∧
         ∀ ij, in_bounds (output mismatched_state) ij.1 ij.2 →
               at_ (output st') ij.1 ij.2 =
                 if decide (in_bounds (input mismatched_state) ij.1 ij.2)
                 then toGray <$> at_ (input mismatched_state) ij.1 ij.2
                 else at_ (output mismatched_state) ij.1 ij.2.
Proof.
  apply (larger_destination_accepted scenario_schedule mismatched_state);
    [mat_ok|simpl; lia..].
Defined.

(** C6: on matrices of the same size the call returns normally, and in the
    state it returns the source matrix (rows, columns and every element) is
    the one it was given, and the destination has its rows, its columns and
    the length of its buffer unchanged: only elements of the destination
    buffer differ. *)
Theorem only_destination_elements_change (sch : tbb.schedule) (st : State)
    (Hok : State_ok st) (Hsize : same_size st) :
  ∃ st', grayscaleConversion sch st = Some st' ∧
         input st' = input st ∧
         rows (output st') = rows (output st) ∧
         cols (output st') = cols (output st) ∧
         length (data (output st')) = length (data (output st)).
Proof.
  exists (gray_image st).
  split; [by apply grayscaleConversion_gray_image|].
  split_and!; try done. simpl. rewrite length_fmap.
  destruct Hok as [(_ & _ & ->) (_ & _ & ->)], Hsize as [-> ->]. done.
Qed.

Lemma only_destination_elements_change_witness :
  ∃ st', grayscaleConversion scenario_schedule scenario_state = Some st' ∧
         input st' = scenario_input ∧
         rows (output st') = 2 ∧ cols (output st') = 2 ∧
         length (data (output st')) = 4%nat.
Proof.
  apply (only_destination_elements_change scenario_schedule scenario_state); mat_ok.
Defined.

(** C7: two calls on the same source, each with a destination of the size
    of the source but with whatever contents, and each under whatever
    schedule, return the same destination matrix. *)
Theorem deterministic_in_source (sch1 sch2 : tbb.schedule)
    (src : Mat Vec3b) (dst1 dst2 : Mat Z)
    (Hsrc : Mat_ok src) (Hdst1 : Mat_ok dst1) (Hdst2 : Mat_ok dst2)
    (Hsize1 : same_size (mkState src dst1)) (Hsize2 : same_size (mkState src dst2)) :
  ∃ out, grayscaleConversion sch1 (mkState src dst1) = Some (mkState src out) ∧
         grayscaleConversion sch2 (mkState src dst2) = Some (mkState src out).
Proof.
  exists (mkMat (rows src) (cols src) (toGray <$> data src)).
  rewrite !grayscaleConversion_gray_image by done.
  destruct Hsize1 as [Hr1 Hc1], Hsize2 as [Hr2 Hc2]; simpl in *.
  unfold gray_image; simpl. by rewrite Hr1, Hc1, Hr2, Hc2.
Qed.

Lemma deterministic_in_source_witness :
  ∃ out,
    grayscaleConversion scenario_schedule
      (mkState scenario_input (mkMat 2 2 [0; 0; 0; 0])) =
      Some (mkState scenario_input out) ∧
    grayscaleConversion (tbb.mkSchedule tbb.Leaf [])
      (mkState scenario_input (mkMat 2 2 [9; 8; 7; 6])) =
      Some (mkState scenario_input out).
Proof.
  apply deterministic_in_source; mat_ok.
Defined.

(** C8: on the 2x2 source [[(10,20,30),(40,50,60)],[(70,80,90),(100,110,120)]]
    and any 2x2 destination, under any schedule, the call returns the
    destination [[20,50],[80,110]]. *)
Theorem scenario_2x2 (sch : tbb.schedule) (dst : Mat Z)
    (Hdst : Mat_ok dst) (Hrows : rows dst = 2) (Hcols : cols dst = 2) :
  grayscaleConversion sch (mkState scenario_input dst) =
    Some (mkState scenario_input (mkMat 2 2 [20; 50; 80; 110])).
Proof.
  rewrite grayscaleConversion_gray_image.
  - unfold gray_image; simpl. by rewrite Hrows, Hcols.
  - split; [mat_ok|done].
  - by split.
Qed.

Lemma scenario_2x2_witness :
  grayscaleConversion scenario_schedule scenario_state =
    Some (mkState scenario_input (mkMat 2 2 [20; 50; 80; 110])).
Proof.
  apply (scenario_2x2 scenario_schedule (mkMat 2 2 [0; 0; 0; 0])); [mat_ok|done..].
Defined.

(** * Further properties of the code *)

(** ** The kernel, lines 34-40 *)

(** X1: the gray value lies between the smallest and the largest of the
    three channels; a pixel with three equal channels keeps that value. *)
Theorem toGray_between_channels (v : Vec3b) (Hv : Vec3b_ok v) :
  val0 v `min` (val1 v `min` val2 v) ≤ toGray v ≤ val0 v `max` (val1 v `max` val2 v).
Proof.
  rewrite toGray_gray_value, gray_value_div by done. split.
  - apply Z.div_le_lower_bound; lia.
  - apply Z.div_le_upper_bound; lia.
Qed.

Lemma toGray_between_channels_witness :
  10 `min` (200 `min` 30) ≤ toGray (mkVec3b 10 200 30) ≤ 10 `max` (200 `max` 30).
Proof.
  assert (Hv : Vec3b_ok (mkVec3b 10 200 30)) by uchar_triple.
  exact (toGray_between_channels _ Hv).
Defined.

(** X2: the kernel is monotone: raising channels never lowers the gray
    value. *)
Theorem toGray_monotone (v v' : Vec3b) (Hv : Vec3b_ok v) (Hv' : Vec3b_ok v')
    (H0 : val0 v ≤ val0 v') (H1 : val1 v ≤ val1 v') (H2 : val2 v ≤ val2 v') :
  toGray v ≤ toGray v'.
Proof.
  rewrite !toGray_gray_value, !gray_value_div by done.
  apply Z.div_le_mono; lia.
Qed.

Lemma toGray_monotone_witness :
  toGray (mkVec3b 10 20 30) ≤ toGray (mkVec3b 10 21 255).
Proof.
  assert (Hv : Vec3b_ok (mkVec3b 10 20 30)) by uchar_triple.
  assert (Hv' : Vec3b_ok (mkVec3b 10 21 255)) by uchar_triple.
  apply (toGray_monotone _ _ Hv Hv'); simpl; lia.
Defined.

(** ** [grayscaleConversion], lines 21-45 *)

(** X3: on a source without rows or without columns the call dispatches
    no sub-range, performs no step and returns the state it was given,
    whatever the destination is. *)
Theorem empty_source_no_work (sch : tbb.schedule) (st : State)
    (Hempty : rows (input st) ≤ 0 ∨ cols (input st) ≤ 0) :
  partitions sch st = [] ∧ writes sch st = [] ∧ grayscaleConversion sch st = Some st.
Proof.
  assert (Hp : partitions sch st = []).
  { unfold partitions, tbb.dispatched. rewrite decide_True; [done|].
    unfold tbb.empty2d, tbb.empty, full_range; simpl. lia. }
  assert (Hw : writes sch st = []).
  { apply Permutation_nil_r. rewrite writes_Permutation.
    rewrite iterations_empty; [done|].
    unfold tbb.empty2d, tbb.empty, full_range; simpl. lia. }
  split_and!; [done..|]. by rewrite grayscaleConversion_trace, Hw.
Qed.

Lemma empty_source_no_work_witness :
  grayscaleConversion scenario_schedule
    (mkState (mkMat 0 5 []) (mkMat 2 2 [7; 7; 7; 7])) =
  Some (mkState (mkMat 0 5 []) (mkMat 2 2 [7; 7; 7; 7])).
Proof.
  apply (empty_source_no_work scenario_schedule
           (mkState (mkMat 0 5 []) (mkMat 2 2 [7; 7; 7; 7]))).
  left; simpl; lia.
Defined.



Lemma gray_image_ok st : State_ok st → same_size st → State_ok (gray_image st).
Proof.
  intros [Hin (Hr & Hc & _)] [Hrs Hcs]. split; [done|].
  unfold Mat_ok, gray_image; simpl. split_and!; try lia.
  rewrite length_fmap, Hrs, Hcs. by destruct Hin as (_ & _ & ->).
Qed.

(** X5: the lambda, run on one sub-range that lies inside matrices of the
    same size, returns normally, leaves the source and the shape of the
    destination as they were, stores the gray value at every coordinate of
    the sub-range and leaves every destination element outside the
    sub-range as it was. *)
Theorem lambda_writes_only_its_range (p : tbb.blocked_range2d) (st : State)
    (Hok : State_ok st) (Hsize : same_size st)
    (Hrb : 0 ≤ tbb.begin (tbb.rows p)) (Hre : tbb.end_ (tbb.rows p) ≤ rows (input st))
    (Hcb : 0 ≤ tbb.begin (tbb.cols p)) (Hce : tbb.end_ (tbb.cols p) ≤ cols (input st)) :
  ∃ st', lambda p st = Some st' ∧
         input st' = input st ∧
         rows (output st') = rows (output st) ∧
         cols (output st') = cols (output st) ∧
         ∀ ij, in_bounds (output st) ij.1 ij.2 →
               at_ (output st') ij.1 ij.2 =
                 if decide (tbb.contains p ij)
                 then toGray <$> at_ (input st) ij.1 ij.2
                 else at_ (output st) ij.1 ij.2.
Proof.
  pose proof Hok as [(Hr & Hc & _) _]. pose proof Hsize as [Hrs Hcs].
  rewrite lambda_iterations by (unfold range_ok, INT_MIN; lia).
  destruct (run_pixel_steps_is_Some (iterations p) st) as [st' Hrun].
  { intros ij Hij. apply ready_full_range; [done|lia..|].
    apply elem_of_iterations in Hij. apply elem_of_iterations.
    unfold tbb.contains, full_range in *; simpl. lia. }
  exists st'. pose proof (run_pixel_steps_frame _ _ _ Hrun) as (? & ? & ? & _).
  split_and!; [done..|]. intros ij Hb.
  rewrite (run_pixel_steps_lookup _ _ _ ij Hrun Hb).
  destruct (decide (ij ∈ iterations p)) as [Hw|Hw]; rewrite elem_of_iterations in Hw.
  - by rewrite decide_True.
  - by rewrite decide_False.
Qed.

Lemma lambda_writes_only_its_range_witness :
  ∃ st', lambda (tbb.mkRange2d (tbb.mkRange 1 2) (tbb.mkRange 0 2)) scenario_state = Some st' ∧
         data (output st') = [0; 0; 80; 110].
Proof.
  destruct (lambda_writes_only_its_range
              (tbb.mkRange2d (tbb.mkRange 1 2) (tbb.mkRange 0 2)) scenario_state)
    as (st' & Hrun & _); [mat_ok|mat_ok|simpl; lia..|].
  exists st'. split; [exact Hrun|].
  vm_compute in Hrun. by injection Hrun as <-.
Defined.

(** X6: running the lambda on the two halves of a cut, one after the
    other, is running it on the whole range: for every cut of the rows, and
    for every cut of the columns, on any state. *)
Theorem lambda_on_halves (R C : tbb.blocked_range) (mid : Z) (st : State)
    (Hok : range_ok (tbb.mkRange2d R C)) :
  (tbb.cuts R mid →
     lambda (tbb.mkRange2d (tbb.lower R mid) C) st ≫=
       lambda (tbb.mkRange2d (tbb.upper R mid) C) = lambda (tbb.mkRange2d R C) st) ∧
  (tbb.cuts C mid →
     lambda (tbb.mkRange2d R (tbb.lower C mid)) st ≫=
       lambda (tbb.mkRange2d R (tbb.upper C mid)) = lambda (tbb.mkRange2d R C) st).
Proof.
  destruct Hok as (Hrb & Hre & Hcb & Hce); simpl in *.
  assert (∀ r s, range_ok r → lambda r s = run_steps pixel_step (iterations r) s)
    as Hlam by (intros; by apply lambda_iterations).
  split; intros Hcut; pose proof Hcut as Hcut'; unfold tbb.cuts in Hcut'.
  - rewrite (Hlam (tbb.mkRange2d (tbb.lower R mid) C))
      by (unfold range_ok; simpl; lia).
    rewrite (Hlam (tbb.mkRange2d R C)) by (unfold range_ok; simpl; lia).
    rewrite <- (iterations_split_rows R C mid) by done.
    rewrite run_steps_app.
    destruct (run_steps pixel_step _ st) as [s1|]; simpl; [|done].
    apply Hlam. unfold range_ok; simpl; lia.
  - rewrite (Hlam (tbb.mkRange2d R (tbb.lower C mid)))
      by (unfold range_ok; simpl; lia).
    rewrite (Hlam (tbb.mkRange2d R C)) by (unfold range_ok; simpl; lia).
    rewrite <- (run_pixel_steps_Permutation _ _ st (iterations_split_cols R C mid Hcut)).
    rewrite run_steps_app.
    destruct (run_steps pixel_step _ st) as [s1|]; simpl; [|done].
    apply Hlam. unfold range_ok; simpl; lia.
Qed.

(** A row cut of a range of one column, where no column cut exists. *)
Lemma lambda_on_halves_witness :
  lambda (tbb.mkRange2d (tbb.mkRange 0 1) (tbb.mkRange 0 1)) scenario_state ≫=
    lambda (tbb.mkRange2d (tbb.mkRange 1 2) (tbb.mkRange 0 1)) =
  lambda (tbb.mkRange2d (tbb.mkRange 0 2) (tbb.mkRange 0 1)) scenario_state.
Proof.
  assert (Hok : range_ok (tbb.mkRange2d (tbb.mkRange 0 2) (tbb.mkRange 0 1)))
    by (unfold range_ok, INT_MIN, INT_MAX; simpl; lia).
  assert (Hcut : tbb.cuts (tbb.mkRange 0 2) 1) by (unfold tbb.cuts; simpl; lia).
  exact (proj1 (lambda_on_halves _ _ 1 scenario_state Hok) Hcut).
Defined.

(** X7: converting again changes nothing: a second call, under any
    schedule, on the state the first call returned, returns that state. *)
Theorem second_call_changes_nothing (sch1 sch2 : tbb.schedule) (st : State)
    (Hok : State_ok st) (Hsize : same_size st) :
  ∃ st', grayscaleConversion sch1 st = Some st' ∧
         grayscaleConversion sch2 st' = Some st'.
Proof.
  exists (gray_image st). split; [by apply grayscaleConversion_gray_image|].
  rewrite grayscaleConversion_gray_image; [done| |done].
  by apply gray_image_ok.
Qed.

Lemma second_call_changes_nothing_witness :
  ∃ st', grayscaleConversion scenario_schedule scenario_state = Some st' ∧
         grayscaleConversion (tbb.mkSchedule tbb.Leaf []) st' = Some st'.
Proof.
  apply (second_call_changes_nothing scenario_schedule (tbb.mkSchedule tbb.Leaf [])
           scenario_state); mat_ok.
Defined.

(** ** Strings *)

Lemma tolower_dot a : std.tolower a = "."%char ↔ a = "."%char.
Proof.
  split; [|by intros ->].
  destruct a as [[] [] [] [] [] [] [] []]; vm_compute; congruence.
Qed.

Lemma tolower_idemp a : std.tolower (std.tolower a) = std.tolower a.
Proof. by destruct a as [[] [] [] [] [] [] [] []]. Qed.

Lemma transform_idemp s :
  std.transform std.tolower (std.transform std.tolower s) = std.transform std.tolower s.
Proof. induction s as [|a s IH]; simpl; [done|]. by rewrite tolower_idemp, IH. Qed.

Lemma transform_length f s : String.length (std.transform f s) = String.length s.
Proof. induction s as [|a s IH]; simpl; [done|]. by rewrite IH. Qed.

Lemma find_last_of_lt s c k : std.find_last_of s c = Some k → (k < String.length s)%nat.
Proof.
  revert k. induction s as [|a s IH]; intros k; simpl; [done|].
  destruct (std.find_last_of s c) as [k'|].
  - intros [= <-]. specialize (IH k' eq_refl). lia.
  - case_decide; [|done]. intros [= <-]. lia.
Qed.

Lemma substr_lt s k : (k < String.length s)%nat → is_Some (std.substr s k).
Proof.
  revert k. induction s as [|a s IH]; intros [|k]; simpl; try lia; [by eexists|].
  intros Hk. apply IH. lia.
Qed.

(** The last [c] of [s] splits it: what follows has no [c]. *)
Lemma find_last_of_split s c k :
  std.find_last_of s c = Some k →
  ∃ stem rest, s = stem +:+ String c rest ∧ String.length stem = k ∧
               std.substr s k = Some (String c rest) ∧
               std.find_last_of rest c = None.
Proof.
  revert k. induction s as [|a s IH]; intros k; simpl; [done|].
  destruct (std.find_last_of s c) as [k'|] eqn:Ek.
  - intros [= <-]. destruct (IH k' eq_refl) as (stem & rest & -> & <- & Hsub & Hrest).
    exists (String a stem), rest. by split_and!.
  - case_decide as Hac; [|done]. intros [= <-]. subst a.
    by exists EmptyString, s.
Qed.

Lemma find_last_of_app s t c :
  std.find_last_of (s +:+ t) c =
    match std.find_last_of t c with
    | Some k => Some (String.length s + k)%nat
    | None => std.find_last_of s c
    end.
Proof.
  induction s as [|a s IH].
  - change (EmptyString +:+ t) with t. by destruct (std.find_last_of t c).
  - change (String a s +:+ t) with (String a (s +:+ t)). simpl.
    rewrite IH. by destruct (std.find_last_of t c).
Qed.

Lemma substr_app s t k :
  std.substr (s +:+ t) (String.length s + k) = std.substr t k.
Proof.
  induction s as [|a s IH]; [done|].
  change (String a s +:+ t) with (String a (s +:+ t)). simpl. apply IH.
Qed.

Lemma find_last_of_transform s :
  std.find_last_of (std.transform std.tolower s) "." = std.find_last_of s ".".
Proof.
  induction s as [|a s IH]; simpl; [done|]. rewrite IH.
  destruct (std.find_last_of s "."); [done|].
  destruct (decide (a = "."%char)) as [->|Hne]; [done|].
  rewrite decide_False; [done|]. by rewrite tolower_dot.
Qed.

Lemma substr_transform f s k :
  std.substr (std.transform f s) k = std.transform f <$> std.substr s k.
Proof.
  revert k. induction s as [|a s IH]; intros [|k]; simpl; done.
Qed.

Lemma is_supported_elem_of exts e : is_supported exts e = true ↔ e ∈ exts.
Proof.
  induction exts as [|x exts IH]; simpl.
  - split; [done|by intros ?%elem_of_nil].
  - rewrite elem_of_cons. case_decide as Hx.
    + split; [by left|done].
    + rewrite IH. split; [by right|]. by intros [->|].
Qed.

Lemma extension_of_None f : extension_of f = None ↔ std.find_last_of f "." = None.
Proof.
  unfold extension_of. destruct (std.find_last_of f ".") as [k|] eqn:Ek; simpl; [|done].
  destruct (substr_lt f k (find_last_of_lt _ _ _ Ek)) as [e ->]. done.
Qed.

Lemma extension_of_lower f :
  extension_of (std.transform std.tolower f) = extension_of f.
Proof.
  unfold extension_of. rewrite find_last_of_transform.
  destruct (std.find_last_of f ".") as [k|]; simpl; [|done].
  rewrite substr_transform. destruct (std.substr f k); simpl; [|done].
  by rewrite transform_idemp.
Qed.

(** ** [main], lines 47-160 *)

Lemma Mat_create_ok r c mem :
  0 ≤ r ≤ INT_MAX → 0 ≤ c ≤ INT_MAX → Mat_ok (Mat_create r c mem).
Proof.
  intros Hr Hc. unfold Mat_ok, Mat_create; simpl. split_and!; try lia.
  by rewrite length_fmap, length_seq.
Qed.

(** The conversion [main] runs (lines 131-134) is on matrices of the same
    size, and ends in the gray matrix of the image read. *)
Lemma main_conversion sch mem img :
  Mat_ok img →
  grayscaleConversion sch (mkState img (Mat_create (rows img) (cols img) mem)) =
    Some (mkState img (gray_of img)).
Proof.
  intros Himg. rewrite grayscaleConversion_gray_image; [done| |done].
  split; [done|]. destruct Himg as (? & ? & _). by apply Mat_create_ok.
Qed.

Section opencv_calls.
Context (w : World).
Implicit Types (calls before : list event).

Lemma opencv_calls_quiet calls before continue :
  Forall (λ call, w_raises w call = false) calls →
  opencv_calls w calls before continue = continue (before ++ calls).
Proof.
  revert before. induction calls as [|call calls IH]; intros before Hq; simpl.
  - by rewrite (right_id_L [] (++)).
  - apply Forall_cons in Hq as [Hcall Hq]. unfold opencv_call. rewrite Hcall.
    rewrite IH by done. by rewrite <- (assoc_L (++)).
Qed.

Lemma opencv_calls_exit calls before c :
  exit_code (opencv_calls w calls before (mkRun (Some 0))) = Some c →
  c = 0 ∧ Forall (λ call, w_raises w call = false) calls.
Proof.
  revert before. induction calls as [|call calls IH]; intros before; simpl.
  - by intros [= <-].
  - unfold opencv_call. destruct (w_raises w call) eqn:Hcall; [done|].
    intros [-> Hq]%IH. split; [done|]. by constructor.
Qed.

Lemma opencv_calls_raised calls before :
  exit_code (opencv_calls w calls before (mkRun (Some 0))) = None →
  ∃ call, call ∈ calls ∧ w_raises w call = true.
Proof.
  revert before. induction calls as [|call calls IH]; intros before; simpl; [done|].
  unfold opencv_call. destruct (w_raises w call) eqn:Hcall.
  - intros _. exists call. split; [by left|done].
  - intros (call' & Hin & Hr)%IH. exists call'. split; [by right|done].
Qed.
End opencv_calls.

Lemma opencv_calls_ext w1 w2 calls before continue :
  (∀ call, w_raises w1 call = w_raises w2 call) →
  opencv_calls w1 calls before continue = opencv_calls w2 calls before continue.
Proof.
  intros Hw. revert before. induction calls as [|call calls IH]; intros before;
    simpl; [done|].
  unfold opencv_call. rewrite Hw. destruct (w_raises w2 call); [done|]. apply IH.
Qed.

Lemma main_convert_run w before cin1 f e img :
  Mat_ok img →
  main_convert w before cin1 f e img =
    opencv_calls w
      (output_calls (result_name (std.extract cin1).1 e).1 img (gray_of img))
      (progress_log before f img (result_name (std.extract cin1).1 e).2)
      (mkRun (Some 0)).
Proof.
  intros Himg. unfold main_convert. rewrite main_conversion by done.
  destruct (std.extract cin1) as [result rest]; simpl.
  by destruct (result_name result e) as [name defaulted].
Qed.

(** The conversion part returns 0 or does not return. *)
Lemma main_convert_exit w before cin1 f e img c :
  exit_code (main_convert w before cin1 f e img) = Some c → c = 0.
Proof.
  unfold main_convert. destruct (grayscaleConversion _ _); [|done].
  destruct (std.extract cin1) as [result rest].
  destruct (result_name result e) as [name defaulted].
  by intros [-> _]%opencv_calls_exit.
Qed.

Lemma main_no_extension w :
  std.find_last_of (typed_file_name w) "." = None →
  main w = error_exit main_banner "ERROR: File extension not found!" 1.
Proof.
  unfold main, typed_file_name. destruct (std.extract (w_cin w)) as [f cin1]; simpl.
  by intros ->.
Qed.

Lemma main_with_extension w k :
  std.find_last_of (typed_file_name w) "." = Some k →
  ∃ e0, std.substr (typed_file_name w) k = Some e0 ∧
        main w = main_validate w main_banner (std.extract (w_cin w)).2
                   (typed_file_name w) e0.
Proof.
  unfold main, typed_file_name. destruct (std.extract (w_cin w)) as [f cin1]; simpl.
  intros Hk. rewrite Hk. pose proof (find_last_of_lt _ _ _ Hk) as Hlt.
  rewrite decide_True by done.
  destruct (substr_lt f k Hlt) as [e0 He0]. rewrite He0. by exists e0.
Qed.

(** [main] turns a file name down exactly as [rejection] says. *)
Lemma main_rejected w c :
  rejection (typed_file_name w) (w_exists w (typed_file_name w)) = Some c →
  ∃ message, main w = error_exit main_banner message c.
Proof.
  unfold rejection, extension_of.
  destruct (std.find_last_of (typed_file_name w) ".") as [k|] eqn:Ek; simpl.
  - destruct (main_with_extension w k Ek) as (e0 & -> & ->); simpl.
    unfold main_validate. case_decide as Hlen.
    + destruct (is_supported _ _) eqn:Es.
      * rewrite decide_True by by apply is_supported_elem_of.
        destruct (w_exists w (typed_file_name w)) as [[|]|]; try done.
        intros [= <-]. by eexists.
      * rewrite decide_False by (rewrite <- is_supported_elem_of; by rewrite Es).
        intros [= <-]. by eexists.
    + intros [= <-]. by eexists.
  - rewrite main_no_extension by done. intros [= <-]. by eexists.
Qed.

Lemma main_accepted w :
  rejection (typed_file_name w) (w_exists w (typed_file_name w)) = None →
  ∃ e, extension_of (typed_file_name w) = Some e ∧
       e ∈ supported_extensions ∧
       (4 ≤ String.length (typed_file_name w) ∧
        String.length (typed_file_name w) < 256)%nat ∧
       ((w_exists w (typed_file_name w) = None ∧ main w = mkRun None main_banner) ∨
        (w_exists w (typed_file_name w) = Some true ∧
         main w = opencv_call w (Imread (typed_file_name w)) main_banner (λ ev,
                    main_convert w ev (std.extract (w_cin w)).2 (typed_file_name w) e
                      (w_imread w (typed_file_name w))))).
Proof.
  unfold rejection, extension_of.
  destruct (std.find_last_of (typed_file_name w) ".") as [k|] eqn:Ek; simpl; [|done].
  destruct (main_with_extension w k Ek) as (e0 & -> & ->); simpl.
  unfold main_validate. case_decide as Hlen; [|done].
  destruct (is_supported _ _) eqn:Es.
  - rewrite decide_True by by apply is_supported_elem_of.
    apply is_supported_elem_of in Es.
    destruct (w_exists w (typed_file_name w)) as [[|]|]; try done; intros _;
      eexists; split_and!; try done; try lia; [by right|by left].
  - by rewrite decide_False by (rewrite <- is_supported_elem_of; by rewrite Es).
Qed.
Lemma extension_split f e :
  extension_of f = Some e →
  ∃ stem rest,
    f = stem +:+ String "." rest ∧
    std.find_last_of rest "." = None ∧
    e = String "." (std.transform std.tolower rest) ∧
    std.find_last_of e "." = Some 0%nat ∧
    std.transform std.tolower e = e.
Proof.
  intros He. unfold extension_of in He.
  destruct (std.find_last_of f ".") as [k|] eqn:Ek; simpl in He; [|done].
  destruct (find_last_of_split _ _ _ Ek) as (stem & rest & Hf & _ & Hsub & Hrest).
  rewrite Hsub in He. simpl in He. injection He as <-.
  exists stem, rest. split_and!; try done.
  - change (std.tolower ".") with "."%char. simpl.
    by rewrite find_last_of_transform, Hrest.
  - change (std.tolower ".") with "."%char. simpl.
    by rewrite transform_idemp.
Qed.

(** X8: the extension [main] works with (lines 64-68 and 84) is the part
    of the file name from its last dot on, in lower case: the file name is
    a stem, a dot and a rest without dots; the extension begins with the
    only dot it contains, and lower-casing it again changes nothing. *)
Theorem extension_of_shape (f e : string) (He : extension_of f = Some e) :
  ∃ stem rest,
    f = stem +:+ String "." rest ∧
    std.find_last_of rest "." = None ∧
    e = String "." (std.transform std.tolower rest) ∧
    std.find_last_of e "." = Some 0%nat ∧
    std.transform std.tolower e = e.
Proof. by apply extension_split. Qed.

Lemma extension_of_shape_witness :
  ∃ stem rest,
    "holiday.2024.JPeG" = stem +:+ String "." rest ∧
    std.find_last_of rest "." = None ∧
    ".jpeg" = String "." (std.transform std.tolower rest) ∧
    std.find_last_of ".jpeg" "." = Some 0%nat ∧
    std.transform std.tolower ".jpeg" = ".jpeg".
Proof. apply (extension_of_shape "holiday.2024.JPeG" ".jpeg"). reflexivity. Defined.

Local Ltac world_ok := unfold Mat_ok, INT_MAX; simpl; repeat split; lia.

Lemma main_success w :
  Mat_ok (w_imread w (typed_file_name w)) →
  exit_code (main w) = Some 0 →
  ∃ e, extension_of (typed_file_name w) = Some e ∧
       e ∈ supported_extensions ∧
       (4 ≤ String.length (typed_file_name w) ∧
        String.length (typed_file_name w) < 256)%nat ∧
       w_exists w (typed_file_name w) = Some true ∧
       Forall (λ call, w_raises w call = false) (success_calls w e) ∧
       main w = mkRun (Some 0)
                  (progress_log (main_banner ++ [Imread (typed_file_name w)])
                     (typed_file_name w) (w_imread w (typed_file_name w))
                     (result_name (typed_result w) e).2 ++
                   output_calls (result_name (typed_result w) e).1
                     (w_imread w (typed_file_name w))
                     (gray_of (w_imread w (typed_file_name w)))).
Proof.
  intros Himg H0.
  destruct (rejection (typed_file_name w) (w_exists w (typed_file_name w)))
    as [c|] eqn:Hrej.
  { destruct (main_rejected w c Hrej) as [message Hmain].
    rewrite Hmain in H0. injection H0 as ->.
    unfold rejection in Hrej. repeat case_match; done. }
  destruct (main_accepted w Hrej) as (e & He & Hsup & Hlen & [[_ Hmain]|[Hex Hmain]]).
  { by rewrite Hmain in H0. }
  exists e. rewrite Hmain in H0 |- *. unfold opencv_call in *.
  destruct (w_raises w (Imread (typed_file_name w))) eqn:Hread; [done|].
  rewrite main_convert_run in H0 |- * by done. fold (typed_result w) in H0 |- *.
  apply opencv_calls_exit in H0 as [_ Hq].
  split_and!; try done; try lia.
  - by constructor.
  - by rewrite opencv_calls_quiet.
Qed.

(** A run that ends with a code other than 0 left through one of the four
    error exits, the one [rejection] names. *)
Lemma main_failure w c :
  exit_code (main w) = Some c → c ≠ 0 →
  rejection (typed_file_name w) (w_exists w (typed_file_name w)) = Some c ∧
  ∃ message, main w = error_exit main_banner message c.
Proof.
  intros Hc Hne.
  destruct (rejection (typed_file_name w) (w_exists w (typed_file_name w)))
    as [c'|] eqn:Hrej.
  - destruct (main_rejected w c' Hrej) as [message Hmain].
    rewrite Hmain in Hc. injection Hc as ->. split; [done|]. by exists message.
  - destruct (main_accepted w Hrej) as (e & _ & _ & _ & [[_ Hmain]|[_ Hmain]]);
      rewrite Hmain in Hc; [done|].
    unfold opencv_call in Hc.
    destruct (w_raises w (Imread (typed_file_name w))); [done|].
    by apply main_convert_exit in Hc.
Qed.

(** The value [main] returns, as a function of what the world gives. *)
Lemma main_exit_code w :
  Mat_ok (w_imread w (typed_file_name w)) →
  exit_code (main w) =
    match rejection (typed_file_name w) (w_exists w (typed_file_name w)) with
    | Some c => Some c
    | None =>
        match extension_of (typed_file_name w), w_exists w (typed_file_name w) with
        | Some e, Some true =>
            if decide (Forall (λ call, w_raises w call = false) (success_calls w e))
            then Some 0 else None
        | _, _ => None
        end
    end.
Proof.
  intros Himg.
  destruct (rejection (typed_file_name w) (w_exists w (typed_file_name w)))
    as [c|] eqn:Hrej.
  { destruct (main_rejected w c Hrej) as [message ->]. done. }
  destruct (main_accepted w Hrej) as (e & -> & _ & _ & [[-> ->]|[-> Hmain]]); [done|].
  rewrite Hmain. unfold opencv_call, success_calls.
  destruct (w_raises w (Imread (typed_file_name w))) eqn:Hread.
  { rewrite decide_False; [done|]. intros [? _]%Forall_cons. congruence. }
  rewrite main_convert_run by done. fold (typed_result w).
  case_decide as Hq.
  - apply Forall_cons in Hq as [_ Hq]. by rewrite opencv_calls_quiet.
  - destruct (exit_code (opencv_calls _ _ _ _)) as [c|] eqn:Hc; [|done].
    apply opencv_calls_exit in Hc as [_ Hq']. destruct Hq. by constructor.
Qed.

(** X9: what each return code of [main] means, when [imread] returns a
    well-formed matrix. 1: the file name has no dot. 4: it has one, but its
    length is not in 4..255. 3: the length is in 4..255, but the lower-cased
    extension is not one of the five supported ones. 2: the extension is
    supported, and [filesystem::exists] answers that the file does not
    exist. 0: it answers that the file exists, and none of the calls into
    OpenCV (the read, the write, the windows, the displays, the wait)
    raises. The length is checked before the extension, the extension
    before the file. *)
Theorem main_exit_codes (w : World)
    (Himg : Mat_ok (w_imread w (typed_file_name w))) :
  let f := typed_file_name w in
  let len_ok := (4 ≤ String.length f ∧ String.length f < 256)%nat in
  (exit_code (main w) = Some 1 ↔ extension_of f = None) ∧
  (exit_code (main w) = Some 4 ↔ is_Some (extension_of f) ∧ ¬ len_ok) ∧
  (exit_code (main w) = Some 3 ↔
     ∃ e, extension_of f = Some e ∧ len_ok ∧ e ∉ supported_extensions) ∧
  (exit_code (main w) = Some 2 ↔
     ∃ e, extension_of f = Some e ∧ len_ok ∧ e ∈ supported_extensions ∧
          w_exists w f = Some false) ∧
  (exit_code (main w) = Some 0 ↔
     ∃ e, extension_of f = Some e ∧ len_ok ∧ e ∈ supported_extensions ∧
          w_exists w f = Some true ∧
          Forall (λ call, w_raises w call = false) (success_calls w e)).
Proof.
  intros f len_ok. rewrite (main_exit_code w Himg). unfold rejection.
  fold f. fold len_ok.
  destruct (extension_of f) as [e|];
    [destruct (decide len_ok) as [Hlen|Hlen];
      [destruct (decide (e ∈ supported_extensions)) as [He|He];
        [destruct (w_exists w f) as [[|]|] eqn:Hex;
          [destruct (decide (Forall (λ call, w_raises w call = false)
                               (success_calls w e))) as [Hq|Hq]| |]|]|]|];
    split_and!; split; intros H; try discriminate H;
    repeat match type of H with
           | ∃ _, _ => destruct H as [? H]
           | Some _ = Some _ ∧ _ => destruct H as [[= <-] H]
           | is_Some _ ∧ _ =>
               let H' := fresh in destruct H as [H' H]; try (by destruct H')
           | _ ∧ _ => let H' := fresh in destruct H as [H' H]; try done
           end;
    try done; try (by destruct H);
    try (exists e; by split_and!); try (split; [by exists e|done]).
Qed.

Lemma main_exit_codes_witness :
  exit_code (main (demo_world ["abcd.gif"])) = Some 3 ↔
  ∃ e, extension_of "abcd.gif" = Some e ∧
       (4 ≤ 8 ∧ 8 < 256)%nat ∧ e ∉ supported_extensions.
Proof.
  assert (Himg : Mat_ok (w_imread (demo_world ["abcd.gif"])
                           (typed_file_name (demo_world ["abcd.gif"]))))
    by world_ok.
  exact (proj1 (proj2 (proj2 (main_exit_codes _ Himg)))).
Defined.

(** X10: [main] itself never fails. When [imread] returns a well-formed
    matrix, a run that returns returns a code from 0 to 4, and a run that
    does not return was ended by an exception of [filesystem::exists] or of
    one of the calls into OpenCV: a dot found by [find_last_of] is always
    inside the file name, so the second test of line 66 never fails and
    [substr] never throws, and the conversion never reaches an element
    outside a matrix. *)
Theorem main_leaves_only_by_exception (w : World)
    (Himg : Mat_ok (w_imread w (typed_file_name w))) :
  (∀ c, exit_code (main w) = Some c → 0 ≤ c ≤ 4) ∧
  (exit_code (main w) = None →
     w_exists w (typed_file_name w) = None ∨
     ∃ e call, extension_of (typed_file_name w) = Some e ∧
               call ∈ success_calls w e ∧ w_raises w call = true) ∧
  (∀ k, std.find_last_of (typed_file_name w) "." = Some k →
        (k < String.length (typed_file_name w))%nat ∧
        is_Some (std.substr (typed_file_name w) k)).
Proof.
  split_and!.
  - intros c Hc. destruct (decide (c = 0)) as [->|Hne]; [lia|].
    destruct (main_failure w c Hc Hne) as [Hrej _].
    unfold rejection in Hrej. repeat case_match; simplify_eq; lia.
  - intros Hnone. rewrite (main_exit_code w Himg) in Hnone.
    destruct (rejection _ _) as [c|] eqn:Hrej; [done|].
    destruct (main_accepted w Hrej) as (e & He & _ & _ & [[Hex _]|[Hex _]]);
      [by left|].
    rewrite He, Hex in Hnone. case_decide as Hq; [done|]. right.
    apply not_Forall_Exists in Hq; [|apply _].
    apply Exists_exists in Hq as (call & Hin & Hr).
    exists e, call. split_and!; [done..|]. simpl in Hr.
    by destruct (w_raises w call).
  - intros k Hk. pose proof (find_last_of_lt _ _ _ Hk). split; [done|].
    by apply substr_lt.
Qed.

(** A run in which [imwrite] raises: [main] does not return, and the call
    that raised is among those of the run. *)
Lemma main_leaves_only_by_exception_witness :
  w_exists (unwritable_world ["Photo.JPG"; "out"]) "Photo.JPG" = None ∨
  ∃ e call, extension_of "Photo.JPG" = Some e ∧
            call ∈ success_calls (unwritable_world ["Photo.JPG"; "out"]) e ∧
            w_raises (unwritable_world ["Photo.JPG"; "out"]) call = true.
Proof.
  assert (Himg : Mat_ok (w_imread (unwritable_world ["Photo.JPG"; "out"])
                           (typed_file_name (unwritable_world ["Photo.JPG"; "out"]))))
    by world_ok.
  exact (proj1 (proj2 (main_leaves_only_by_exception _ Himg)) eq_refl).
Defined.

(** X11: a run that returns a code other than 0 has printed the two lines
    of the start, one message on [cerr], has slept two seconds, and has
    done nothing else: no image was read, written or shown. *)
Theorem main_error_exit (w : World) (c : Z)
    (Hc : exit_code (main w) = Some c) (Hne : c ≠ 0) :
  (∃ message,
     events (main w) = main_banner ++ [Cerr (message +:+ std.endl); SleepFor 2]) ∧
  Forall (λ e, is_opencv_call e = false) (events (main w)).
Proof.
  destruct (main_failure w c Hc Hne) as (_ & message & ->). simpl. split.
  - by exists message.
  - by repeat constructor.
Qed.

Lemma main_error_exit_witness :
  ∃ message,
    events (main (demo_world ["photo.jpg"; "out"])) =
      main_banner ++ [Cerr (message +:+ std.endl); SleepFor 2].
Proof.
  apply (main_error_exit (demo_world ["photo.jpg"; "out"]) 2); [reflexivity|lia].
Defined.

(** X12: in a run that returns 0, on a well-formed image [img] read from
    the file, the calls into OpenCV are, in this order: the read of the
    file; the write of the gray matrix of [img] (same size, every element
    the gray value of the element of [img]) under the result name; the
    window and display of [img], unchanged; the window and display of the
    same gray matrix; the wait for a key. *)
Theorem main_success_calls (w : World)
    (Himg : Mat_ok (w_imread w (typed_file_name w)))
    (H0 : exit_code (main w) = Some 0) :
  ∃ e, extension_of (typed_file_name w) = Some e ∧
       filter (λ ev, is_opencv_call ev) (events (main w)) =
         [ Imread (typed_file_name w);
           Imwrite (result_name (typed_result w) e).1
                   (gray_of (w_imread w (typed_file_name w)));
           NamedWindow "Input Image" WINDOW_GUI_NORMAL;
           ImshowColor "Input Image" (w_imread w (typed_file_name w));
           NamedWindow "Grayscaled Image" WINDOW_GUI_NORMAL;
           ImshowGray "Grayscaled Image" (gray_of (w_imread w (typed_file_name w)));
           WaitKey 0 ].
Proof.
  destruct (main_success w Himg H0) as (e & He & _ & _ & _ & _ & ->).
  exists e. split; [done|]. cbn [events]. unfold progress_log.
  rewrite !filter_app.
  by destruct (result_name _ _).2.
Qed.

Lemma main_success_calls_witness :
  ∃ e, extension_of "Photo.JPG" = Some e ∧
       filter (λ ev, is_opencv_call ev)
         (events (main (demo_world ["Photo.JPG"; "out"]))) =
         [ Imread "Photo.JPG";
           Imwrite (result_name "out" e).1 (gray_of scenario_input);
           NamedWindow "Input Image" WINDOW_GUI_NORMAL;
           ImshowColor "Input Image" scenario_input;
           NamedWindow "Grayscaled Image" WINDOW_GUI_NORMAL;
           ImshowGray "Grayscaled Image" (gray_of scenario_input);
           WaitKey 0 ].
Proof.
  apply (main_success_calls (demo_world ["Photo.JPG"; "out"])); [world_ok|reflexivity].
Defined.

(** X13: the run does not depend on what the freshly allocated gray matrix
    contained, nor on the schedule of the parallel loop: with the same
    input tokens, file system, decoded image and behaviour of the OpenCV
    calls, [main] does and returns the same. *)
Theorem main_ignores_memory_and_schedule (w : World) (mem : nat → Z)
    (sch : tbb.schedule)
    (Himg : Mat_ok (w_imread w (typed_file_name w))) :
  main (mkWorld (w_cin w) (w_exists w) (w_imread w) (w_raises w) mem sch) = main w.
Proof.
  unfold typed_file_name in Himg. unfold main. cbn [w_cin].
  destruct (std.extract (w_cin w)) as [f cin1]. cbn [fst] in Himg.
  destruct (std.find_last_of f ".") as [k|]; [|done].
  case_decide; [|done]. destruct (std.substr f k) as [e0|]; [|done].
  unfold main_validate. cbn [w_exists w_imread]. case_decide; [|done].
  destruct (is_supported _ _); [|done]. destruct (w_exists w f) as [[|]|]; try done.
  unfold opencv_call. cbn [w_raises].
  destruct (w_raises w (Imread f)); [done|].
  rewrite !main_convert_run by done. by apply opencv_calls_ext.
Qed.

Lemma main_ignores_memory_and_schedule_witness :
  main (mkWorld ["Photo.JPG"; "out"] (λ path, Some (bool_decide (path = "Photo.JPG")))
          (λ _, scenario_input) (λ _, false) (λ _, 255) (tbb.mkSchedule tbb.Leaf [])) =
  main (demo_world ["Photo.JPG"; "out"]).
Proof.
  apply (main_ignores_memory_and_schedule (demo_world ["Photo.JPG"; "out"])).
  world_ok.
Defined.

Lemma extension_of_result r e :
  std.find_last_of e "." = Some 0%nat → std.transform std.tolower e = e →
  extension_of (r +:+ e) = Some e.
Proof.
  intros Hdot Hlow. unfold extension_of. rewrite find_last_of_app, Hdot. simpl.
  rewrite substr_app. replace (std.substr e 0) with (Some e) by by destruct e.
  simpl. by rewrite Hlow.
Qed.

(** X14: the name the result is saved under (lines 139-150), in a run that
    returns 0. When a result name of 1 to 255 characters was typed, the
    image is written under that name followed by the lower-cased extension
    of the input file, which is one of the five supported ones and is the
    extension [main] would find in the new name. Otherwise the image is
    written under [grayscaled_image], a name without any extension. *)
Theorem main_output_name (w : World)
    (Himg : Mat_ok (w_imread w (typed_file_name w)))
    (H0 : exit_code (main w) = Some 0) :
  ∃ e, extension_of (typed_file_name w) = Some e ∧
       e ∈ supported_extensions ∧
       (typed_result w ≠ EmptyString ∧ (String.length (typed_result w) ≤ 255)%nat →
          Imwrite (typed_result w +:+ e) (gray_of (w_imread w (typed_file_name w)))
            ∈ events (main w) ∧
          extension_of (typed_result w +:+ e) = Some e) ∧
       (typed_result w = EmptyString ∨ (255 < String.length (typed_result w))%nat →
          Imwrite "grayscaled_image" (gray_of (w_imread w (typed_file_name w)))
            ∈ events (main w) ∧
          extension_of "grayscaled_image" = None).
Proof.
  destruct (main_success w Himg H0) as (e & He & Hsup & _ & _ & _ & Hmain).
  exists e. split_and!; [done..| |].
  - intros [Hne Hlen]. split.
    + rewrite Hmain. cbn [events]. unfold result_name.
      rewrite decide_False by (intros [?|?]; [done|lia]). cbn [fst snd].
      rewrite elem_of_app. right. by left.
    + destruct (extension_split _ _ He) as (stem & rest & _ & _ & _ & Hdot & Hlow).
      by apply extension_of_result.
  - intros Hdef. split; [|done].
    rewrite Hmain. cbn [events]. unfold result_name.
    rewrite decide_True by done. cbn [fst snd].
    rewrite elem_of_app. right. by left.
Qed.

Lemma main_output_name_witness :
  ∃ e, extension_of "Photo.JPG" = Some e ∧
       e ∈ supported_extensions ∧
       ("out" ≠ EmptyString ∧ (3 ≤ 255)%nat →
          Imwrite ("out" +:+ e) (gray_of scenario_input)
            ∈ events (main (demo_world ["Photo.JPG"; "out"])) ∧
          extension_of ("out" +:+ e) = Some e) ∧
       ("out" = EmptyString ∨ (255 < 3)%nat →
          Imwrite "grayscaled_image" (gray_of scenario_input)
            ∈ events (main (demo_world ["Photo.JPG"; "out"])) ∧
          extension_of "grayscaled_image" = None).
Proof.
  apply (main_output_name (demo_world ["Photo.JPG"; "out"])); [world_ok|reflexivity].
Defined.

Lemma rejection_lower f found :
  rejection (std.transform std.tolower f) found = rejection f found.
Proof. unfold rejection. by rewrite extension_of_lower, transform_length. Qed.

Lemma main_error_code w c :
  c ≠ 0 →
  exit_code (main w) = Some c ↔
  rejection (typed_file_name w) (w_exists w (typed_file_name w)) = Some c.
Proof.
  intros Hne. split.
  - intros Hc. by destruct (main_failure w c Hc Hne).
  - intros Hrej. by destruct (main_rejected w c Hrej) as [message ->].
Qed.

(** X15: the case of the letters of the file name matters only to the file
    system. Two runs whose file names are equal once lower-cased, and for
    which [filesystem::exists] gives the same answer, are turned down with
    the same code 1, 2, 3 or 4, or neither is turned down. *)
Theorem main_case_insensitive (w w' : World) (c : Z)
    (Hname : std.transform std.tolower (typed_file_name w) =
             std.transform std.tolower (typed_file_name w'))
    (Hexists : w_exists w (typed_file_name w) = w_exists w' (typed_file_name w'))
    (Hc : c ≠ 0) :
  exit_code (main w) = Some c ↔ exit_code (main w') = Some c.
Proof.
  rewrite !main_error_code by done.
  rewrite <- (rejection_lower (typed_file_name w)).
  rewrite <- (rejection_lower (typed_file_name w')).
  by rewrite Hname, Hexists.
Qed.

Lemma main_case_insensitive_witness :
  exit_code (main (demo_world ["photo.TXT"])) = Some 3 ↔
  exit_code (main (demo_world ["PHOTO.txt"])) = Some 3.
Proof.
  apply main_case_insensitive; [reflexivity|reflexivity|lia].
Defined.
